(** * Jeopardy board: a shallow embedding of [jeopardy.js]

    The script keeps two globals ([categories], [gameStarted]), talks to
    a remote quiz service through [axios], samples with lodash's
    [_.sampleSize] and draws the board with jQuery.  The globals, the
    page and the outside world are threaded through a state-and-exception
    monad; every function of the script is one definition below, named as
    in the source.  The service and the random numbers are parameters
    ([Env]); the jQuery calls act on a small model of the page ([Dom])
    by their documented behaviour.  [setupAndStart] is the run taken
    in one piece; [resume] cuts it at its [await]s and [act] lets
    runs, clicks and restarts take turns, so that what holds of a run
    only while it has the page to itself is stated with [runs_alone]. *)

From Stdlib Require Import Ascii String DecimalString DecimalNat.
From stdpp Require Import base option list strings.

Local Open Scope string_scope.

(** ** JavaScript values used by the script *)

(** The fields [showing] and [title] are read through JavaScript's
    dynamic operations (truthiness, [===], a method call), so they are
    kept as values rather than as strings. *)
Inductive jsval : Type :=
  | JUndefined
  | JNull
  | JStr (s : string).

Global Instance jsval_eq_dec : EqDecision jsval.
Proof. solve_decision. Defined.

(** [ToBoolean]: [undefined], [null] and the empty string are falsy. *)
Definition truthy (v : jsval) : bool :=
  match v with
  | JUndefined | JNull => false
  | JStr s => negb (String.eqb s "")
  end.

(** [v === "lit"] for a string literal. *)
Definition strict_eq_str (v : jsval) (lit : string) : bool :=
  match v with
  | JStr s => String.eqb s lit
  | _ => false
  end.

(** What can be thrown while the script runs: a property read or a
    method call on [undefined] / [null], and a rejected request. *)
Inductive error : Type :=
  | TypeError
  | RequestFailed.

Inductive result (A : Type) : Type :=
  | Ok (a : A)
  | Throw (e : error).
Arguments Ok {A} a.
Arguments Throw {A} e.

(** ** Strings *)

(** Upper-casing of one ASCII character: the letters [a] to [z] move to
    [A] to [Z], every other character stays. *)
Definition upper_ascii (a : ascii) : ascii :=
  let n := nat_of_ascii a in
  if (97 <=? n)%nat && (n <=? 122)%nat then ascii_of_nat (n - 32) else a.

Fixpoint upper_ascii_string (s : string) : string :=
  match s with
  | EmptyString => EmptyString
  | String a s' => String (upper_ascii a) (upper_ascii_string s')
  end.

(** Whether every character of a string is an ASCII character. *)
Fixpoint is_ascii (s : string) : bool :=
  match s with
  | EmptyString => true
  | String a s' => (nat_of_ascii a <? 128)%nat && is_ascii s'
  end.

(** [s.split(sep)] for a one-character separator: the pieces between the
    separators, never an empty array. *)
Fixpoint split (sep : ascii) (s : string) : list string :=
  match s with
  | EmptyString => [EmptyString]
  | String a s' =>
      if Ascii.eqb a sep then EmptyString :: split sep s'
      else match split sep s' with
           | piece :: pieces => String a piece :: pieces
           | [] => [String a EmptyString]
           end
  end.

(** Number-to-string conversion of a non-negative integer, as a template
    literal performs it. *)
Definition string_of_nat (n : nat) : string :=
  NilEmpty.string_of_uint (Nat.to_uint n).

(** A property key is an array index when it is the canonical decimal
    spelling of a non-negative integer ("0", "7", "12"; not "", "07",
    "+1"). *)
Definition array_index (key : string) : option nat :=
  match NilEmpty.uint_of_string key with
  | Some d =>
      let n := Nat.of_uint d in
      if String.eqb (string_of_nat n) key then Some n else None
  | None => None
  end.

(** [arr[key]] for a key that is a string or [undefined] (a missing
    piece of a destructured array).  Own elements only: the inherited
    members of an array ([length], the methods) are not cells of the
    board and are left out. *)
Definition array_get {A : Type} (arr : list A) (key : option string)
  : option (nat * A) :=
  match key with
  | Some k =>
      match array_index k with
      | Some i => match arr !! i with Some x => Some (i, x) | None => None end
      | None => None
      end
  | None => None
  end.

(** The cell identifier built by the template literal
    [`${catIdx}-${clueIdx}`]. *)
Definition cell_ident (catIdx clueIdx : nat) : string :=
  string_of_nat catIdx ++ "-" ++ string_of_nat clueIdx.

(** ** The board, the page and the outside world *)

Record Clue : Type := mkClue {
  question : string;
  answer : string;
  showing : jsval
}.

Record Category : Type := mkCategory {
  title : jsval;
  clues : list Clue
}.

(** A [<td>] of the table body: its [id] attribute, its text and its
    class list. *)
Record Cell : Type := mkCell {
  cell_id : string;
  cell_text : string;
  cell_class : list string
}.

(** The parts of the page the script touches: the rows of
    [#jeopardy thead] (each a list of [<th>] texts), the rows of
    [#jeopardy tbody], whether [#spin-container] is shown, and the text
    of the [#start] button. *)
Record Dom : Type := mkDom {
  thead : list (list string);
  tbody : list (list Cell);
  spinner : bool;
  start_text : string
}.

(** An [axios.get] promise either rejects or resolves with the
    response's [data]. *)
Inductive response (A : Type) : Type :=
  | Rejected
  | Resolved (data : A).
Arguments Rejected {A}.
Arguments Resolved {A} data.

(** One record of the category-list endpoint; only [id] is read. *)
Record CategorySummary : Type := mkSummary { cat_id : Z }.

(** What the script cannot see into: the remote service and the random
    number generator, each a transition on an abstract world [W], and
    the browser's case mapping for text that is not plain ASCII. *)
Record Env (W : Type) : Type := mkEnv {
  categories_endpoint : W -> response (list CategorySummary) * W;
  category_endpoint : Z -> W -> response Category * W;
  random_draw : W -> nat * W;
  host_toUpperCase : string -> string
}.
Arguments categories_endpoint {W} _ _.
Arguments category_endpoint {W} _ _ _.
Arguments random_draw {W} _ _.
Arguments host_toUpperCase {W} _ _.

(** [String.prototype.toUpperCase]: on a string of ASCII characters it
    upper-cases the letters [a] to [z] and keeps the rest; on any other
    string it is the browser's Unicode case mapping, taken from the
    environment. *)
Definition toUpperCase {W : Type} (env : Env W) (s : string) : string :=
  if is_ascii s then upper_ascii_string s else host_toUpperCase env s.

(** The script's globals ([categories], [gameStarted]) together with the
    page and the world. *)
Record State (W : Type) : Type := mkState {
  world : W;
  categories : list Category;
  gameStarted : bool;
  page : Dom
}.
Arguments mkState {W} _ _ _ _.
Arguments world {W} _.
Arguments categories {W} _.
Arguments gameStarted {W} _.
Arguments page {W} _.

Definition NUM_CATEGORIES : nat := 6.
Definition NUM_QUESTIONS_PER_CAT : nat := 5.

Definition RESTART_CAPTION : string := "ðŸ‘‰ Restart ðŸ‘ˆ".
Definition START_CAPTION : string := "ðŸ‘‰ Start ðŸ‘ˆ".

(** ** The monad: state passing with exceptions *)

Definition JS (S A : Type) : Type := S -> result A * S.

Global Instance JS_ret {S : Type} : MRet (JS S) :=
  fun A a s => (Ok a, s).

Global Instance JS_bind {S : Type} : MBind (JS S) :=
  fun A B f m s =>
    match m s with
    | (Ok a, s') => f a s'
    | (Throw e, s') => (Throw e, s')
    end.

Definition throw {S A : Type} (e : error) : JS S A :=
  fun s => (Throw e, s).

Definition gets {S A : Type} (f : S -> A) : JS S A :=
  fun s => (Ok (f s), s).

Definition modify {S : Type} (f : S -> S) : JS S unit :=
  fun s => (Ok tt, f s).

(** [try { body } catch (error) { handler }]: whatever the body changed
    before it threw stays changed. *)
Definition try_catch {S A : Type} (body : JS S A) (handler : error -> JS S A)
  : JS S A :=
  fun s =>
    match body s with
    | (Ok a, s') => (Ok a, s')
    | (Throw e, s') => handler e s'
    end.

(** [for (const x of xs) { body }]. *)
Fixpoint for_of {S A : Type} (xs : list A) (body : A -> JS S unit) : JS S unit :=
  match xs with
  | [] => mret tt
  | x :: xs' => body x;; for_of xs' body
  end.

(** [for (let i = from; i < from + count; i++) { body }]. *)
Fixpoint for_range {St : Type} (from count : nat) (body : nat -> JS St unit)
  : JS St unit :=
  match count with
  | O => mret tt
  | S count' => body from;; for_range (S from) count' body
  end.

(** Reading a property of [undefined] throws. *)
Definition deref {S A : Type} (v : option A) : JS S A :=
  match v with
  | Some x => mret x
  | None => throw TypeError
  end.

(** [v.toUpperCase()]: a method call, which throws on [undefined] and
    [null]. *)
Definition call_toUpperCase {W S : Type} (env : Env W) (v : jsval)
  : JS S string :=
  match v with
  | JStr s => mret (toUpperCase env s)
  | JUndefined | JNull => throw TypeError
  end.

(** ** State and page updates *)

Definition set_showing (v : jsval) (clue : Clue) : Clue :=
  mkClue (question clue) (answer clue) v.

Definition set_clues (cs : list Clue) (category : Category) : Category :=
  mkCategory (title category) cs.

Definition set_thead (rows : list (list string)) (d : Dom) : Dom :=
  mkDom rows (tbody d) (spinner d) (start_text d).

Definition set_tbody (rows : list (list Cell)) (d : Dom) : Dom :=
  mkDom (thead d) rows (spinner d) (start_text d).

Definition set_spinner (b : bool) (d : Dom) : Dom :=
  mkDom (thead d) (tbody d) b (start_text d).

Definition set_start_text (s : string) (d : Dom) : Dom :=
  mkDom (thead d) (tbody d) (spinner d) s.

Definition set_text (s : string) (c : Cell) : Cell :=
  mkCell (cell_id c) s (cell_class c).

(** [addClass] adds a class name once. *)
Definition add_class (cls : string) (c : Cell) : Cell :=
  mkCell (cell_id c) (cell_text c)
         (if bool_decide (cls ∈ cell_class c) then cell_class c
          else cell_class c ++ [cls]).

(** [$("#id")] selects the first element carrying that id, in document
    order; an operation on an empty selection does nothing. *)
Fixpoint update_first {A : Type} (p : A -> bool) (f : A -> A) (l : list A)
  : option (list A) :=
  match l with
  | [] => None
  | x :: l' =>
      if p x then Some (f x :: l')
      else match update_first p f l' with
           | Some l'' => Some (x :: l'')
           | None => None
           end
  end.

Fixpoint update_first_row {A : Type} (p : A -> bool) (f : A -> A)
  (rows : list (list A)) : list (list A) :=
  match rows with
  | [] => []
  | row :: rows' =>
      match update_first p f row with
      | Some row' => row' :: rows'
      | None => row :: update_first_row p f rows'
      end
  end.

Definition by_id (f : Cell -> Cell) (id : string) (d : Dom) : Dom :=
  set_tbody (update_first_row (fun c => String.eqb (cell_id c) id) f (tbody d)) d.

(** The board after [showing] of the clue at
    [categories[catIdx].clues[clueIdx]] has been overwritten. *)
Definition write_showing (catIdx clueIdx : nat) (v : jsval)
  (cats : list Category) : list Category :=
  alter (fun category =>
           set_clues (alter (set_showing v) clueIdx (clues category)) category)
        catIdx cats.

(** A click event, as far as the handler reads it: [evt.target.id]. *)
Record Event : Type := mkEvent { target_id : string }.

Section Script.
Context {W : Type} (env : Env W).

Definition set_world (w : W) (s : State W) : State W :=
  mkState w (categories s) (gameStarted s) (page s).

Definition set_categories (cats : list Category) (s : State W) : State W :=
  mkState (world s) cats (gameStarted s) (page s).

Definition set_gameStarted (b : bool) (s : State W) : State W :=
  mkState (world s) (categories s) b (page s).

Definition set_page (d : Dom) (s : State W) : State W :=
  mkState (world s) (categories s) (gameStarted s) d.

Definition on_page (f : Dom -> Dom) : JS (State W) unit :=
  modify (fun s => set_page (f (page s)) s).

(** [clue.showing = v] on the clue object held at
    [categories[catIdx].clues[clueIdx]].  Clue objects come from
    separately parsed responses, so the path names the object. *)
Definition assign_showing (catIdx clueIdx : nat) (v : jsval)
  : JS (State W) unit :=
  modify (fun s =>
    set_categories (write_showing catIdx clueIdx v (categories s)) s).

(** [await axios.get(url)]: a rejected request surfaces as an
    exception at the [await]. *)
Definition axios_get_categories : JS (State W) (list CategorySummary) :=
  fun s =>
    match categories_endpoint env (world s) with
    | (Resolved data, w') => (Ok data, set_world w' s)
    | (Rejected, w') => (Throw RequestFailed, set_world w' s)
    end.

Definition axios_get_category (catId : Z) : JS (State W) Category :=
  fun s =>
    match category_endpoint env catId (world s) with
    | (Resolved data, w') => (Ok data, set_world w' s)
    | (Rejected, w') => (Throw RequestFailed, set_world w' s)
    end.

(** [Math.floor(Math.random() * n)]. *)
Definition random_floor (n : nat) : JS (State W) nat :=
  fun s =>
    let (k, w') := random_draw env (world s) in
    (Ok (k `mod` n), set_world w' s).

(** *** lodash's [_.sampleSize] *)

(** Modelled from the spec: lodash is loaded by the page and is not part
    of the script.  [baseRandom(lower, upper)] is lodash 4's
    [lower + floor(random() * (upper - lower + 1))], an integer between
    the two bounds. *)
Definition baseRandom (lower upper : nat) : JS (State W) nat :=
  r ← random_floor (upper - lower + 1);
  mret (lower + r).

(** Modelled from the spec: the loop of lodash 4's [shuffleSelf], which
    is not part of the script: [while (++index < size)] swaps
    [array[index]] with a random element at or after it, so that no
    position is drawn twice ("without replacement").  [steps] counts
    the iterations left. *)
Fixpoint shuffle_loop {A : Type} (steps index lastIndex : nat)
  (array : list A) : JS (State W) (list A) :=
  match steps with
  | O => mret array
  | S steps' =>
      rand ← baseRandom index lastIndex;
      let array' :=
        match array !! rand, array !! index with
        | Some value, Some at_index =>
            <[index := value]> (<[rand := at_index]> array)
        | _, _ => array
        end in
      shuffle_loop steps' (S index) lastIndex array'
  end.

(** Modelled from the spec: lodash 4's [shuffleSelf(array, size)], not
    part of the script: the loop above, then [array.length = size]. *)
Definition shuffleSelf {A : Type} (array : list A) (size : nat)
  : JS (State W) (list A) :=
  shuffled ← shuffle_loop size 0 (length array - 1) array;
  mret (take size shuffled).

(** Modelled from the spec: [_.sampleSize] belongs to lodash, not to the
    script.  The spec asks for "a uniform random sample of 6 without
    replacement"; the definition follows lodash 4 on arrays, a partial
    Fisher-Yates shuffle of a copy cut to [min n length] elements, with
    the random numbers taken from the world. *)
Definition sampleSize {A : Type} (array : list A) (n : nat)
  : JS (State W) (list A) :=
  shuffleSelf array (n `min` length array).

(** *** The script *)

Definition getCategoriesIds : JS (State W) (list Z) :=
  try_catch
    (data ← axios_get_categories;
     let categoryIds := cat_id <$> data in
     sampleSize categoryIds NUM_CATEGORIES)
    (fun _ => mret []).

(** The result is [null] ([None]) when the request failed. *)
Definition getCategory (catId : Z) : JS (State W) (option Category) :=
  try_catch
    (category ← axios_get_category catId;
     let category :=
       set_clues (take NUM_QUESTIONS_PER_CAT (clues category)) category in
     let category :=
       set_clues (set_showing JNull <$> clues category) category in
     mret (Some category))
    (fun _ => mret None).

Definition renderCategories (categories : list Category)
  : JS (State W) unit :=
  on_page (set_thead []);;
  on_page (set_tbody []);;
  tr ← mapM (fun category => call_toUpperCase env (title category))
            categories;
  on_page (fun d => set_thead (thead d ++ [tr]) d);;
  for_range 0 NUM_QUESTIONS_PER_CAT (fun clueIdx =>
    let tr :=
      imap (fun catIdx _ => mkCell (cell_ident catIdx clueIdx) "?" [])
           categories in
    on_page (fun d => set_tbody (tbody d ++ [tr]) d)).

Definition handleClick (evt : Event) : JS (State W) unit :=
  let id := target_id evt in
  let pieces := split "-" id in
  let catId := pieces !! 0%nat in
  let clueId := pieces !! 1%nat in
  cats ← gets categories;
  '(catIdx, category) ← deref (array_get cats catId);
  '(clueIdx, clue) ← deref (array_get (clues category) clueId);
  if negb (truthy (showing clue)) then
    on_page (by_id (set_text (question clue)) id);;
    assign_showing catIdx clueIdx (JStr "question")
  else if strict_eq_str (showing clue) "question" then
    on_page (by_id (set_text (answer clue)) id);;
    on_page (by_id (add_class "showing-answer") id);;
    assign_showing catIdx clueIdx (JStr "answer")
  else mret tt.

Definition showLoadingView : JS (State W) unit :=
  on_page (set_thead []);;
  on_page (set_tbody []);;
  on_page (set_spinner true).

Definition hideLoadingView : JS (State W) unit :=
  on_page (set_spinner false).

(** The run in one piece, as when nothing else happens on the page
    while it waits at its [await]s (lines 157 and 162, and the requests
    inside the two fetchers); [begin_run] and [resume] below give the
    same run one stretch at a time. *)
Definition setupAndStart : JS (State W) unit :=
  showLoadingView;;
  categoryIds ← getCategoriesIds;
  modify (set_categories []);;
  for_of categoryIds (fun catId =>
    category ← getCategory catId;
    match category with
    | Some c => modify (fun s => set_categories (categories s ++ [c]) s)
    | None => mret tt
    end);;
  cats ← gets categories;
  renderCategories cats;;
  hideLoadingView;;
  modify (fun s => set_gameStarted (negb (gameStarted s)) s);;
  started ← gets gameStarted;
  if (started : bool) then on_page (set_start_text RESTART_CAPTION)
  else on_page (set_start_text START_CAPTION).

(** The browser's dispatch of one event to a listener: an exception
    that escapes the listener is reported and the page lives on in the
    state the listener left. *)
Definition dispatch {A : Type} (listener : A -> JS (State W) unit)
  (s : State W) (evt : A) : State W :=
  snd (listener evt s).
End Script.

(** ** A scripted world, for running the script on concrete inputs *)

(** The replies of the service are fixed in advance and the random
    numbers are read off a list (0 once it is exhausted). *)
Record Scripted : Type := mkScripted {
  list_reply : response (list CategorySummary);
  detail_reply : Z -> response Category;
  draws : list nat
}.

Definition scripted : Env Scripted :=
  mkEnv Scripted
    (fun w => (list_reply w, w))
    (fun catId w => (detail_reply w catId, w))
    (fun w =>
       match draws w with
       | [] => (O, w)
       | k :: ks => (k, mkScripted (list_reply w) (detail_reply w) ks)
       end)
    (fun s => s).

(** A page without a service: every request is rejected. *)
Definition offline : Env unit :=
  mkEnv unit
    (fun w => (Rejected, w))
    (fun _ w => (Rejected, w))
    (fun w => (O, w))
    (fun s => s).

Definition blank_page : Dom := mkDom [] [] false "".

Definition fresh {W : Type} (w : W) : State W := mkState w [] false blank_page.

Definition demo_clue (n : nat) : Clue :=
  mkClue ("Q" ++ string_of_nat n) ("A" ++ string_of_nat n) JUndefined.

(** Category 1 has seven clues, category 2 has two, category 3 has no
    title, every other request is rejected. *)
Definition demo_detail (catId : Z) : response Category :=
  if (catId =? 1)%Z then
    Resolved (mkCategory (JStr "Math") (demo_clue <$> seq 0 7))
  else if (catId =? 2)%Z then
    Resolved (mkCategory (JStr "Art") (demo_clue <$> seq 10 2))
  else if (catId =? 3)%Z then
    Resolved (mkCategory JUndefined (demo_clue <$> seq 20 5))
  else Rejected.

Definition demo_world (ids : list Z) (rnd : list nat) : Scripted :=
  mkScripted (Resolved (mkSummary <$> ids)) demo_detail rnd.


(** ** Notions used to state the properties *)

(** The reveal state of a clue, read off [showing] the way the handler
    reads it: falsy is hidden, ["question"] is the question, any other
    value is treated as the answer (the handler writes only
    ["answer"]). *)
Inductive RevealState : Type := Hidden | Question | Answer.

Definition revealState (v : jsval) : RevealState :=
  if negb (truthy v) then Hidden
  else if strict_eq_str v "question" then Question
  else Answer.

(** One click's worth of progress: stay, or take the next step. *)
Inductive advances : RevealState -> RevealState -> Prop :=
  | advances_stay st : advances st st
  | advances_question : advances Hidden Question
  | advances_answer : advances Question Answer.

Definition rank (st : RevealState) : nat :=
  match st with Hidden => 0 | Question => 1 | Answer => 2 end.

(** [categories[catIdx].clues[clueIdx]]. *)
Definition clue_at (cats : list Category) (catIdx clueIdx : nat) : option Clue :=
  match cats !! catIdx with
  | Some category => clues category !! clueIdx
  | None => None
  end.

(** The two assignments the handler can make to [showing], against the
    value it found. *)
Inductive writes : jsval -> jsval -> Prop :=
  | writes_question old : truthy old = false -> writes old (JStr "question")
  | writes_answer : writes (JStr "question") (JStr "answer").

(** The cell a click event addresses: both pieces of the identifier
    must be array indices. *)
Definition addressed (evt : Event) : option (nat * nat) :=
  let pieces := split "-" (target_id evt) in
  match pieces !! 0%nat, pieces !! 1%nat with
  | Some catId, Some clueId =>
      match array_index catId, array_index clueId with
      | Some c, Some r => Some (c, r)
      | _, _ => None
      end
  | _, _ => None
  end.

(** The states passed through while a sequence of clicks is handled. *)
Definition click_all {W : Type} (s : State W) (evts : list Event) : State W :=
  foldl (dispatch handleClick) s evts.

(** The table body of a freshly drawn board. *)
Definition masked_row (cats : list Category) (clueIdx : nat) : list Cell :=
  imap (fun catIdx _ => mkCell (cell_ident catIdx clueIdx) "?" []) cats.

Definition masked_grid (cats : list Category) : list (list Cell) :=
  masked_row cats <$> seq 0 NUM_QUESTIONS_PER_CAT.

(** Two states that differ at most in the world. *)
Definition same_script_state {W : Type} (s s' : State W) : Prop :=
  categories s' = categories s
  /\ gameStarted s' = gameStarted s
  /\ page s' = page s.

(** What [getCategory] makes of a resolved response. *)
Definition trimmed (data : Category) : Category :=
  mkCategory (title data)
             (set_showing JNull <$> take NUM_QUESTIONS_PER_CAT (clues data)).

(** The cell found at a row and a column of a table body. *)
Definition cell_at (rows : list (list Cell)) (row col : nat) : option Cell :=
  match rows !! row with
  | Some cells => cells !! col
  | None => None
  end.

(** A category whose title is a string. *)
Definition has_title (category : Category) : Prop :=
  exists t, title category = JStr t.

(** [th] is [t] with its letters [a] to [z] replaced by [A] to [Z],
    character by character, said with character codes. *)
Definition upper_cased (t th : string) : Prop :=
  String.length th = String.length t
  /\ forall i a,
      String.get i t = Some a ->
      exists b,
        String.get i th = Some b
        /\ nat_of_ascii b
           = if (97 <=? nat_of_ascii a)%nat && (nat_of_ascii a <=? 122)%nat
             then nat_of_ascii a - 32
             else nat_of_ascii a.

(** The header texts, when every title is a string. *)
Definition header_text {W : Type} (env : Env W) (v : jsval) : option string :=
  match v with
  | JStr t => Some (toUpperCase env t)
  | JUndefined | JNull => None
  end.

(** The replies of the detail endpoint to a sequence of requests, made
    one after the other. *)
Fixpoint replies {W : Type} (env : Env W) (ids : list Z) (w : W)
  : list (response Category) * W :=
  match ids with
  | [] => ([], w)
  | catId :: ids' =>
      let (reply, w1) := category_endpoint env catId w in
      let (rest, w2) := replies env ids' w1 in
      (reply :: rest, w2)
  end.

Definition resolved {A : Type} (r : response A) : option A :=
  match r with
  | Resolved data => Some data
  | Rejected => None
  end.

(** ** The page a board should show *)

(** What the cell of column [catIdx], row [clueIdx] shows for a category:
    the mask while the clue is hidden or missing, the question once it
    is shown, the answer with the marker class at the end. *)
Definition cell_view (catIdx clueIdx : nat) (category : Category) : Cell :=
  let id := cell_ident catIdx clueIdx in
  match clues category !! clueIdx with
  | None => mkCell id "?" []
  | Some clue =>
      match revealState (showing clue) with
      | Hidden => mkCell id "?" []
      | Question => mkCell id (question clue) []
      | Answer => mkCell id (answer clue) ["showing-answer"]
      end
  end.

Definition row_view (cats : list Category) (clueIdx : nat) : list Cell :=
  imap (fun catIdx category => cell_view catIdx clueIdx category) cats.

Definition board_view (cats : list Category) : list (list Cell) :=
  row_view cats <$> seq 0 NUM_QUESTIONS_PER_CAT.

(** The identifiers of a table body, row by row. *)
Definition cell_ids (rows : list (list Cell)) : list (list string) :=
  fmap (M := list) cell_id <$> rows.

(** Every cell carries the identifier of its own place. *)
Definition ids_in_place (rows : list (list Cell)) : Prop :=
  forall row col cell,
    cell_at rows row col = Some cell -> cell_id cell = cell_ident col row.

(** The table body is either empty (the loading view) or shows the
    board as it stands. *)
Definition consistent {W : Type} (s : State W) : Prop :=
  tbody (page s) = [] \/ tbody (page s) = board_view (categories s).

(** The caption of [#start] agrees with [gameStarted]. *)
Definition caption_of (started : bool) : string :=
  if started then RESTART_CAPTION else START_CAPTION.

(** The values the script itself writes to [showing]. *)
Definition scripted_showing (v : jsval) : Prop :=
  v = JNull \/ v = JStr "question" \/ v = JStr "answer".

Definition all_clues (P : Clue -> Prop) (cats : list Category) : Prop :=
  Forall (fun category => Forall P (clues category)) cats.

(** ** The two listeners of the page *)

(** The user's actions the script listens to: a click on [#start]
    ([$("#start").on("click", setupAndStart)]) and a click on a [<td>]
    of [#jeopardy] ([$("#jeopardy").on("click", "td", handleClick)]),
    named here by its row and column in the table body. *)
Inductive UserAction : Type :=
  | ClickStart
  | ClickCell (row col : nat).

(** One action, handled to its end.  A click on a cell reaches
    [handleClick] with that cell as [evt.target]; where the table has no
    such cell there is nothing to click. *)
Definition react {W : Type} (env : Env W) (s : State W) (a : UserAction)
  : State W :=
  match a with
  | ClickStart => dispatch (fun _ : unit => setupAndStart env) s tt
  | ClickCell row col =>
      match cell_at (tbody (page s)) row col with
      | Some cell => dispatch handleClick s (mkEvent (cell_id cell))
      | None => s
      end
  end.

Definition react_all {W : Type} (env : Env W) (s : State W)
  (actions : list UserAction) : State W :=
  foldl (react env) s actions.

(** ** A run of [setupAndStart], await by await *)

(** [setupAndStart] is an async function: at every [await] it gives the
    page back to the browser, which may run other listeners (a second
    click on [#start], a click on a cell) or resume another run before
    it resumes this one.  [Pending] names the places where a run
    waits:
    - [AwaitList]: inside [getCategoriesIds], for the category list
      (line 33);
    - [AwaitIds]: in [setupAndStart], for [getCategoriesIds] to hand
      over the ids it has computed (line 157);
    - [AwaitDetail]: inside [getCategory], for the detail of one
      category (line 56), with the ids the loop has still to visit;
    - [AwaitCategory]: in [setupAndStart], for [getCategory] to hand
      over its category or [null] (line 162). *)
Inductive Pending : Type :=
  | AwaitList
  | AwaitIds (categoryIds : list Z)
  | AwaitDetail (catId : Z) (rest : list Z)
  | AwaitCategory (category : option Category) (rest : list Z).

Section Awaits.
Context {W : Type} (env : Env W).

(** Lines 155-157, up to the first [await]. *)
Definition begin_run : JS (State W) Pending :=
  showLoadingView;;
  mret AwaitList.

(** Lines 163-165: the body of the loop after its [await]. *)
Definition push_category (category : option Category) : JS (State W) unit :=
  match category with
  | Some c => modify (fun s => set_categories (categories s ++ [c]) s)
  | None => mret tt
  end.

(** Lines 168-179: what follows the loop, run without a break. *)
Definition finish_run : JS (State W) unit :=
  cats ← gets categories;
  renderCategories env cats;;
  hideLoadingView;;
  modify (fun s => set_gameStarted (negb (gameStarted s)) s);;
  started ← gets gameStarted;
  if (started : bool) then on_page (set_start_text RESTART_CAPTION)
  else on_page (set_start_text START_CAPTION).

(** The head of the loop of line 161: call [getCategory] for the next
    id and wait, or leave the loop and finish the run ([None]). *)
Definition next_request (categoryIds : list Z)
  : JS (State W) (option Pending) :=
  match categoryIds with
  | [] => finish_run;; mret None
  | catId :: rest => mret (Some (AwaitDetail catId rest))
  end.

(** One stretch of a run, from the [await] it was waiting at to the
    next one ([Some]) or to its end ([None]); an exception ends the
    run. *)
Definition resume (p : Pending) : JS (State W) (option Pending) :=
  match p with
  | AwaitList =>
      categoryIds ← getCategoriesIds env;
      mret (Some (AwaitIds categoryIds))
  | AwaitIds categoryIds =>
      modify (set_categories []);;
      next_request categoryIds
  | AwaitDetail catId rest =>
      category ← getCategory env catId;
      mret (Some (AwaitCategory category rest))
  | AwaitCategory category rest =>
      push_category category;;
      next_request rest
  end.

(** What is left of a run that is resumed again and again with nothing
    in between. *)
Definition fetch_and_push (catId : Z) : JS (State W) unit :=
  category ← getCategory env catId;
  push_category category.

Definition rest_of_run (p : Pending) : JS (State W) unit :=
  match p with
  | AwaitList =>
      categoryIds ← getCategoriesIds env;
      modify (set_categories []);;
      for_of categoryIds fetch_and_push;;
      finish_run
  | AwaitIds categoryIds =>
      modify (set_categories []);;
      for_of categoryIds fetch_and_push;;
      finish_run
  | AwaitDetail catId rest =>
      for_of (catId :: rest) fetch_and_push;;
      finish_run
  | AwaitCategory category rest =>
      push_category category;;
      for_of rest fetch_and_push;;
      finish_run
  end.
End Awaits.

(** The page with its runs in flight, and the outcome of every run that
    has ended, oldest first. *)
Record System (W : Type) : Type := mkSystem {
  globals : State W;
  inflight : list Pending;
  outcomes : list (result unit)
}.
Arguments mkSystem {W} _ _ _.
Arguments globals {W} _.
Arguments inflight {W} _.
Arguments outcomes {W} _.

(** What happens next on the page: the user acts, or the run in flight
    at position [k] is resumed. *)
Inductive Step : Type :=
  | User (a : UserAction)
  | Settle (k : nat).

Global Instance UserAction_eq_dec : EqDecision UserAction.
Proof. solve_decision. Defined.

Global Instance Step_eq_dec : EqDecision Step.
Proof. solve_decision. Defined.

Definition act {W : Type} (env : Env W) (sys : System W) (step : Step)
  : System W :=
  match step with
  | User ClickStart =>
      match begin_run (globals sys) with
      | (Ok p, s') => mkSystem s' (inflight sys ++ [p]) (outcomes sys)
      | (Throw e, s') => mkSystem s' (inflight sys) (outcomes sys ++ [Throw e])
      end
  | User (ClickCell row col) =>
      mkSystem (react env (globals sys) (ClickCell row col))
               (inflight sys) (outcomes sys)
  | Settle k =>
      match inflight sys !! k with
      | None => sys
      | Some p =>
          match resume env p (globals sys) with
          | (Ok (Some p'), s') =>
              mkSystem s' (<[k := p']> (inflight sys)) (outcomes sys)
          | (Ok None, s') =>
              mkSystem s' (delete k (inflight sys)) (outcomes sys ++ [Ok tt])
          | (Throw e, s') =>
              mkSystem s' (delete k (inflight sys))
                       (outcomes sys ++ [Throw e])
          end
      end
  end.

Definition act_all {W : Type} (env : Env W) (sys : System W)
  (steps : list Step) : System W :=
  foldl (act env) sys steps.

(** A page on which no run is in flight. *)
Definition idle {W : Type} (s : State W) : System W := mkSystem s [] [].

(** A run that has the page to itself: it starts on a page with no run
    in flight, no second click on [#start] comes before it ends, and it
    ends with the step [last]. *)
Definition runs_alone {W : Type} (env : Env W) (sys : System W)
  (steps : list Step) (last : Step) : Prop :=
  inflight sys = []
  /\ Forall (fun step => step <> User ClickStart) steps
  /\ inflight (act_all env (act env sys (User ClickStart)) steps) <> []
  /\ inflight (act env (act_all env (act env sys (User ClickStart)) steps) last)
     = [].

Definition after_run {W : Type} (env : Env W) (sys : System W)
  (steps : list Step) (last : Step) : System W :=
  act env (act_all env (act env sys (User ClickStart)) steps) last.

(** A run that started from [s0] is in flight, alone, and what is left
    of it will end as the whole run does from [s0]. *)
Definition run_in_progress {W : Type} (env : Env W) (s0 : State W)
  (ended : list (result unit)) (sys : System W) : Prop :=
  exists p,
    inflight sys = [p]
    /\ tbody (page (globals sys)) = []
    /\ outcomes sys = ended
    /\ rest_of_run env p (globals sys) = setupAndStart env s0.

(** A service in which every category exists: category [n] has the
    title ["n"] and no clue. *)
Definition numbered_detail (catId : Z) : response Category :=
  Resolved (mkCategory (JStr (string_of_nat (Z.to_nat catId))) []).

Definition numbered_world (ids : list Z) : Scripted :=
  mkScripted (Resolved (mkSummary <$> ids)) numbered_detail [].

(** A run over three ids, resumed eight times, with clicks on cells and
    a resumption of a run that does not exist in between: the steps
    before the last resumption. *)
Definition quiet_steps : list Step :=
  [Settle 0; User (ClickCell 0 0); Settle 0; Settle 0; Settle 3; Settle 0;
   Settle 0; User (ClickCell 2 1); Settle 0; Settle 0].

(** A restart during loading: the first run has put three of its six
    categories on the board when [#start] is clicked again; the second
    run gets as far as emptying the board, then the first run goes on
    to its end. *)
Definition restart_during_loading : list Step :=
  [User ClickStart;
   Settle 0; Settle 0; Settle 0; Settle 0; Settle 0; Settle 0; Settle 0;
   Settle 0;
   User ClickStart; Settle 1; Settle 1;
   Settle 0; Settle 0; Settle 0; Settle 0; Settle 0; Settle 0].

(** Two clicks on [#start] in a row: each run gets its ids and empties
    the board before either has put a category on it, then the first
    run fetches five categories, the second all of its six, and the
    first its last. *)
Definition double_start : list Step :=
  [User ClickStart; User ClickStart; Settle 0; Settle 0; Settle 1; Settle 1]
  ++ replicate 10 (Settle 0) ++ replicate 12 (Settle 1)
  ++ replicate 2 (Settle 0).

(** Unfolds the monad's operations, so that a run reduces to matches on
    the state. *)

Ltac js_unfold :=
  cbv [mbind JS_bind mret JS_ret gets modify throw deref on_page
       assign_showing try_catch] in *.

(** Checks, by running it, that a concrete run has the page to itself. *)
Ltac run_alone :=
  split; [reflexivity|];
  split; [repeat (constructor; [discriminate|]); constructor|];
  split; [vm_compute; discriminate|reflexivity].

(** ** Strings: identifiers and array indices *)

Lemma array_index_string_of_nat (n : nat) :
  array_index (string_of_nat n) = Some n.
Proof.
  unfold array_index, string_of_nat.
  rewrite NilEmpty.usu, Unsigned.of_to.
  now rewrite String.eqb_refl.
Qed.

Lemma array_index_inv (key : string) (n : nat) :
  array_index key = Some n -> key = string_of_nat n.
Proof.
  unfold array_index.
  destruct (NilEmpty.uint_of_string key) as [d|]; [|discriminate].
  destruct (String.eqb_spec (string_of_nat (Nat.of_uint d)) key) as [E|];
    [|discriminate].
  intros [= <-]. now symmetry.
Qed.

Lemma string_app_cons (a : ascii) (s t : string) :
  (String a s ++ t)%string = String a (s ++ t).
Proof. reflexivity. Qed.

Lemma string_app_nil_r (s : string) : (s ++ "")%string = s.
Proof.
  induction s as [|a s IH]; [reflexivity|].
  rewrite string_app_cons. now rewrite IH.
Qed.

Lemma split_cons_inv (sep : ascii) (s : string) :
  exists piece pieces, split sep s = piece :: pieces.
Proof.
  induction s as [|a s IH]; simpl; [eauto|].
  destruct (Ascii.eqb a sep); [eauto|].
  destruct IH as (p & ps & ->). eauto.
Qed.

(** Decimal digits contain no dash, so they stay in the piece they
    start. *)
Lemma split_digits (d : Decimal.uint) (s piece : string) (pieces : list string) :
  split "-" s = piece :: pieces ->
  split "-" (NilEmpty.string_of_uint d ++ s)
  = (NilEmpty.string_of_uint d ++ piece) :: pieces.
Proof.
  intros Hs.
  induction d; simpl NilEmpty.string_of_uint;
    rewrite ?string_app_cons; simpl; rewrite ?IHd; auto.
Qed.

Lemma split_cell_ident (catIdx clueIdx : nat) :
  split "-" (cell_ident catIdx clueIdx)
  = [string_of_nat catIdx; string_of_nat clueIdx].
Proof.
  unfold cell_ident, string_of_nat.
  assert (Hr : split "-" (NilEmpty.string_of_uint (Nat.to_uint clueIdx))
               = [NilEmpty.string_of_uint (Nat.to_uint clueIdx)]).
  { rewrite <- (string_app_nil_r (NilEmpty.string_of_uint (Nat.to_uint clueIdx))) at 1.
    rewrite (split_digits _ "" "" []); [|reflexivity].
    now rewrite string_app_nil_r. }
  rewrite (split_digits _ _ "" [NilEmpty.string_of_uint (Nat.to_uint clueIdx)]).
  - now rewrite string_app_nil_r.
  - rewrite string_app_cons. simpl.
    change ("" ++ ?t)%string with t. now rewrite Hr.
Qed.

(** ** The click handler *)

Lemma addressed_cell_ident (c r : nat) :
  addressed (mkEvent (cell_ident c r)) = Some (c, r).
Proof.
  unfold addressed. simpl. rewrite split_cell_ident. simpl.
  now rewrite !array_index_string_of_nat.
Qed.

Lemma clue_at_write_showing (c r : nat) (v : jsval) (cats : list Category)
  (c' r' : nat) :
  clue_at (write_showing c r v cats) c' r'
  = if decide ((c', r') = (c, r)) then set_showing v <$> clue_at cats c r
    else clue_at cats c' r'.
Proof.
  unfold clue_at, write_showing.
  rewrite list_lookup_alter.
  destruct (decide (c = c')) as [->|Hc].
  - destruct (cats !! c') as [cat|]; simpl.
    + rewrite list_lookup_alter.
      destruct (decide (r = r')) as [->|Hr].
      * now rewrite decide_True.
      * rewrite decide_False; [reflexivity|congruence].
    + now destruct (decide _).
  - rewrite decide_False; [reflexivity|congruence].
Qed.

Lemma titles_write_showing (c r : nat) (v : jsval) (cats : list Category) :
  title <$> write_showing c r v cats = title <$> cats.
Proof.
  unfold write_showing. apply list_eq. intros i.
  rewrite !list_lookup_fmap, list_lookup_alter.
  destruct (decide (c = i)) as [->|]; [|reflexivity].
  now destruct (cats !! i).
Qed.

(** What one call of the handler does to the script's data: nothing, or
    one of its two assignments to the addressed clue. *)
Lemma handleClick_effect {W : Type} (evt : Event) (s : State W) :
  world (snd (handleClick evt s)) = world s
  /\ gameStarted (snd (handleClick evt s)) = gameStarted s
  /\ (categories (snd (handleClick evt s)) = categories s
      \/ exists c r clue v,
           addressed evt = Some (c, r)
           /\ clue_at (categories s) c r = Some clue
           /\ writes (showing clue) v
           /\ categories (snd (handleClick evt s))
              = write_showing c r v (categories s)).
Proof.
  unfold handleClick, addressed, clue_at, array_get. js_unfold.
  destruct (split "-" (target_id evt) !! 0%nat) as [catId|]; simpl; auto.
  destruct (array_index catId) as [c|]; simpl; auto.
  destruct (categories s !! c) as [cat|] eqn:Hcat; simpl; auto.
  destruct (split "-" (target_id evt) !! 1%nat) as [clueId|]; simpl; auto.
  destruct (array_index clueId) as [r|]; simpl; auto.
  destruct (clues cat !! r) as [clue|] eqn:Hclue; simpl; auto.
  destruct (truthy (showing clue)) eqn:Ht; simpl.
  - destruct (strict_eq_str (showing clue) "question") eqn:Hq; simpl; auto.
    do 2 (split; [reflexivity|]). right.
    exists c, r, clue, (JStr "answer"). rewrite Hcat.
    repeat split; auto.
    destruct (showing clue) as [| |t]; try discriminate.
    simpl in Hq. apply String.eqb_eq in Hq as ->. constructor.
  - do 2 (split; [reflexivity|]). right.
    exists c, r, clue, (JStr "question"). rewrite Hcat.
    repeat split; auto. now constructor.
Qed.

Lemma writes_advances (old v : jsval) :
  writes old v -> advances (revealState old) (revealState v).
Proof.
  intros [old' Hf|]; unfold revealState.
  - rewrite Hf. simpl. constructor.
  - simpl. constructor.
Qed.

(** The three values the script itself stores in [showing]. *)
Example revealState_values :
  revealState JNull = Hidden
  /\ revealState (JStr "question") = Question
  /\ revealState (JStr "answer") = Answer.
Proof. repeat split. Qed.

Lemma advances_rank (a b : RevealState) :
  advances a b -> rank a <= rank b <= S (rank a).
Proof. intros []; simpl; lia. Qed.

(** One click, seen from an arbitrary clue of the board. *)
Lemma handleClick_clue_step {W : Type} (evt : Event) (s : State W)
  (c r : nat) (clue : Clue) :
  clue_at (categories s) c r = Some clue ->
  exists clue',
    clue_at (categories (dispatch handleClick s evt)) c r = Some clue'
    /\ question clue' = question clue
    /\ answer clue' = answer clue
    /\ advances (revealState (showing clue)) (revealState (showing clue')).
Proof.
  intros Hclue. unfold dispatch.
  destruct (handleClick_effect evt s) as (_ & _ & [-> | H]).
  { exists clue. repeat split; auto. constructor. }
  destruct H as (c0 & r0 & clue0 & v & _ & Hclue0 & Hw & ->).
  rewrite clue_at_write_showing.
  destruct (decide ((c, r) = (c0, r0))) as [[= -> ->]|_].
  - rewrite Hclue0. rewrite Hclue in Hclue0. injection Hclue0 as <-.
    exists (set_showing v clue). simpl. repeat split.
    now apply writes_advances.
  - exists clue. repeat split; auto. constructor.
Qed.

(** C1. Every click leaves each clue of the board in place and moves
    its reveal state by [advances]: it stays, or goes from Hidden to
    Question, or from Question to Answer; so no click skips Question
    and none goes back.  Over any sequence of clicks the rank of the
    reveal state (Hidden 0, Question 1, Answer 2) never decreases. *)
Theorem reveal_state_forward {W : Type} (s : State W) (evts : list Event)
  (c r : nat) (clue : Clue) :
  clue_at (categories s) c r = Some clue ->
  (forall evt, exists clue',
      clue_at (categories (dispatch handleClick s evt)) c r = Some clue'
      /\ advances (revealState (showing clue)) (revealState (showing clue')))
  /\ (exists clue',
        clue_at (categories (click_all s evts)) c r = Some clue'
        /\ rank (revealState (showing clue))
           <= rank (revealState (showing clue'))).
Proof.
  intros Hclue. split.
  - intros evt.
    destruct (handleClick_clue_step evt s c r clue Hclue) as (k & ? & _ & _ & ?).
    eauto.
  - revert s clue Hclue.
    induction evts as [|evt evts IH]; intros s clue Hclue; simpl.
    + eauto.
    + destruct (handleClick_clue_step evt s c r clue Hclue)
        as (k & Hk & _ & _ & Hadv).
      destruct (IH _ _ Hk) as (k' & Hk' & Hle).
      exists k'. split; [exact Hk'|].
      apply advances_rank in Hadv. unfold click_all in *. lia.
Qed.

(** C2. A click on the cell of a clue whose [showing] is ["answer"]
    returns normally and leaves the whole state as it was: the board
    data and every cell's text and classes. *)
Theorem handleClick_answer_noop {W : Type} (s : State W) (evt : Event)
  (c r : nat) (clue : Clue) :
  addressed evt = Some (c, r) ->
  clue_at (categories s) c r = Some clue ->
  showing clue = JStr "answer" ->
  handleClick evt s = (Ok tt, s).
Proof.
  unfold addressed, clue_at, handleClick, array_get. js_unfold.
  destruct (split "-" (target_id evt) !! 0%nat) as [catId|]; [|discriminate].
  destruct (split "-" (target_id evt) !! 1%nat) as [clueId|]; [|discriminate].
  destruct (array_index catId) as [c0|]; [|discriminate].
  destruct (array_index clueId) as [r0|]; [|discriminate].
  intros [= -> ->]. simpl.
  destruct (categories s !! c) as [cat|]; [|discriminate]. simpl.
  intros -> ->. reflexivity.
Qed.

Lemma handleClick_answer_noop_witness :
  let s := mkState tt [mkCategory (JStr "Math") [mkClue "2+2" "4" (JStr "answer")]]
                   true
                   (mkDom [["MATH"]] [[mkCell "0-0" "4" ["showing-answer"]]]
                          false RESTART_CAPTION) in
  handleClick (mkEvent (cell_ident 0 0)) s = (Ok tt, s).
Proof.
  intros s.
  apply (handleClick_answer_noop s (mkEvent (cell_ident 0 0)) 0 0
           (mkClue "2+2" "4" (JStr "answer")));
    reflexivity.
Defined.

Lemma reveal_state_forward_witness :
  let s := mkState tt [mkCategory (JStr "Math") [mkClue "2+2" "4" JNull]]
                   true
                   (mkDom [["MATH"]] [[mkCell "0-0" "?" []]] false
                          RESTART_CAPTION) in
  let clue := mkClue "2+2" "4" JNull in
  let evts := [mkEvent "0-0"; mkEvent "0-3"; mkEvent "0-0"; mkEvent "0-0"] in
  (forall evt, exists clue',
      clue_at (categories (dispatch handleClick s evt)) 0 0 = Some clue'
      /\ advances (revealState (showing clue)) (revealState (showing clue')))
  /\ (exists clue',
        clue_at (categories (click_all s evts)) 0 0 = Some clue'
        /\ rank (revealState (showing clue))
           <= rank (revealState (showing clue'))).
Proof.
  intros s clue evts.
  apply (reveal_state_forward s evts 0 0 clue). reflexivity.
Defined.

(** C3. A call of the handler leaves the world and [gameStarted] alone
    and keeps every category title.  A click on the cell
    ["catIdx-clueIdx"] addresses the clue at [(catIdx, clueIdx)]; every
    clue other than the addressed one is exactly as it was, and no clue,
    the addressed one included, has its question or answer changed: the
    only field written is [showing] of the addressed clue. *)
Theorem handleClick_frame {W : Type} (s : State W) (evt : Event) :
  let s' := snd (handleClick evt s) in
  world s' = world s
  /\ gameStarted s' = gameStarted s
  /\ title <$> categories s' = title <$> categories s
  /\ (forall catIdx clueIdx,
        addressed (mkEvent (cell_ident catIdx clueIdx))
        = Some (catIdx, clueIdx))
  /\ (forall c r, addressed evt <> Some (c, r) ->
        clue_at (categories s') c r = clue_at (categories s) c r)
  /\ (forall c r,
        question <$> clue_at (categories s') c r
        = question <$> clue_at (categories s) c r
        /\ answer <$> clue_at (categories s') c r
           = answer <$> clue_at (categories s) c r).
Proof.
  intros s'. subst s'.
  destruct (handleClick_effect evt s) as (Hw & Hg & Hc).
  do 2 (split; [assumption|]).
  destruct Hc as [-> | (c0 & r0 & clue0 & v & Ha & Hclue0 & _ & ->)].
  { repeat split; auto using addressed_cell_ident. }
  split; [apply titles_write_showing|].
  split; [apply addressed_cell_ident|].
  split.
  - intros c r Hne. rewrite clue_at_write_showing.
    rewrite decide_False; [reflexivity|]. congruence.
  - intros c r. rewrite clue_at_write_showing.
    destruct (decide ((c, r) = (c0, r0))) as [[= -> ->]|_]; [|now split].
    rewrite Hclue0. now split.
Qed.

Lemma handleClick_frame_witness :
  let s := mkState tt
             [mkCategory (JStr "Math") [mkClue "2+2" "4" JNull;
                                        mkClue "1+1" "2" JNull]]
             true
             (mkDom [["MATH"]] (masked_grid [mkCategory (JStr "Math") []])
                    false RESTART_CAPTION) in
  let s' := snd (handleClick (mkEvent (cell_ident 0 1)) s) in
  clue_at (categories s') 0 0 = clue_at (categories s) 0 0
  /\ showing <$> clue_at (categories s') 0 1 = Some (JStr "question").
Proof.
  intros s s'.
  destruct (handleClick_frame s (mkEvent (cell_ident 0 1)))
    as (_ & _ & _ & _ & Hother & _).
  split; [|reflexivity].
  apply Hother. discriminate.
Defined.

(** ** Drawing the board *)

Lemma header_cells_run {W : Type} (env : Env W) (cats : list Category)
  (s : State W) :
  mapM (M := JS (State W)) (fun category => call_toUpperCase env (title category))
       cats s
  = match mapM (fun category => header_text env (title category)) cats with
    | Some ths => (Ok ths, s)
    | None => (Throw TypeError, s)
    end.
Proof.
  induction cats as [|cat cats IH]; [reflexivity|].
  simpl. js_unfold.
  destruct (title cat) as [| |t]; simpl; try reflexivity.
  rewrite IH.
  destruct (mapM (fun category => header_text env (title category)) cats);
    reflexivity.
Qed.

Lemma body_rows_run {W : Type} (row : nat -> list Cell) (count from : nat)
  (s : State W) :
  for_range from count
    (fun clueIdx => on_page (fun d => set_tbody (tbody d ++ [row clueIdx]) d)) s
  = (Ok tt,
     set_page (set_tbody (tbody (page s) ++ (row <$> seq from count)) (page s)) s).
Proof.
  revert from s. induction count as [|count IH]; intros from s.
  - simpl. js_unfold. rewrite app_nil_r.
    now destruct s as [w cats g [th tb sp st]].
  - simpl. js_unfold. rewrite IH. simpl.
    now rewrite <- app_assoc.
Qed.

(** The page after [renderCategories], whatever was drawn before. *)
Lemma renderCategories_run {W : Type} (env : Env W) (cats : list Category)
  (s : State W) :
  renderCategories env cats s
  = match mapM (fun category => header_text env (title category)) cats with
    | Some ths =>
        (Ok tt,
         set_page (mkDom [ths] (masked_grid cats) (spinner (page s))
                         (start_text (page s))) s)
    | None =>
        (Throw TypeError,
         set_page (mkDom [] [] (spinner (page s)) (start_text (page s))) s)
    end.
Proof.
  unfold renderCategories.
  change (on_page (set_thead []) ≫= _) with
    (fun s0 : State W =>
       match on_page (set_thead []) s0 with
       | (Ok a, s') =>
           (on_page (set_tbody []);;
            tr ← mapM (fun category => call_toUpperCase env (title category)) cats;
            on_page (fun d => set_thead (thead d ++ [tr]) d);;
            for_range 0 NUM_QUESTIONS_PER_CAT (fun clueIdx =>
              on_page (fun d =>
                set_tbody (tbody d ++ [masked_row cats clueIdx]) d))) s'
       | (Throw e, s') => (Throw e, s')
       end).
  cbv beta. unfold on_page at 1, modify at 1. cbv iota beta.
  unfold mbind at 1, JS_bind at 1. unfold on_page at 1, modify at 1.
  cbv iota beta.
  unfold mbind at 1, JS_bind at 1. rewrite header_cells_run.
  destruct (mapM _ cats) as [ths|]; [|reflexivity].
  unfold mbind at 1, JS_bind at 1. unfold on_page at 1, modify at 1.
  cbv iota beta.
  rewrite body_rows_run. reflexivity.
Qed.

Lemma masked_grid_cell (cats : list Category) (row col : nat) (cell : Cell) :
  cell_at (masked_grid cats) row col = Some cell
  <-> row < NUM_QUESTIONS_PER_CAT /\ col < length cats
      /\ cell = mkCell (cell_ident col row) "?" [].
Proof.
  unfold cell_at, masked_grid, masked_row.
  rewrite list_lookup_fmap.
  destruct (seq 0 NUM_QUESTIONS_PER_CAT !! row) as [r|] eqn:Hrow; simpl.
  - apply lookup_seq in Hrow as [-> Hlt]. simpl.
    rewrite list_lookup_imap.
    destruct (cats !! col) as [cat|] eqn:Hcol; simpl.
    + apply lookup_lt_Some in Hcol. split.
      * intros [= <-]. auto.
      * intros (_ & _ & ->). reflexivity.
    + apply lookup_ge_None in Hcol. split; [discriminate|].
      intros (_ & ? & _). lia.
  - apply lookup_ge_None in Hrow. rewrite length_seq in Hrow.
    split; [discriminate|]. intros (? & _). lia.
Qed.

Lemma upper_ascii_string_spec (t : string) :
  upper_cased t (upper_ascii_string t).
Proof.
  induction t as [|a t [IHlen IHget]]; split;
    cbn [upper_ascii_string String.length String.get].
  - reflexivity.
  - intros i c. destruct i; discriminate.
  - now rewrite IHlen.
  - intros [|i] c.
    + intros [= <-]. eexists. split; [reflexivity|].
      unfold upper_ascii.
      destruct ((97 <=? nat_of_ascii a)%nat && (nat_of_ascii a <=? 122)%nat);
        [|reflexivity].
      apply nat_ascii_embedding.
      pose proof (nat_ascii_bounded a). lia.
    + apply IHget.
Qed.

Lemma toUpperCase_ascii {W : Type} (env : Env W) (t : string) :
  is_ascii t = true -> upper_cased t (toUpperCase env t).
Proof.
  intros Hascii. unfold toUpperCase. rewrite Hascii.
  apply upper_ascii_string_spec.
Qed.

Lemma header_texts_Some {W : Type} (env : Env W) (cats : list Category) :
  is_Some (mapM (fun category => header_text env (title category)) cats)
  <-> Forall has_title cats.
Proof.
  rewrite mapM_is_Some. apply Forall_iff. intros cat. simpl.
  unfold has_title, header_text.
  destruct (title cat) as [| |t]; split; intros H;
    try (destruct H as [? H]; discriminate); eauto.
Qed.

(** C8. Drawing the same board a second time gives the outcome and the
    page of the first drawing.  The drawing completes exactly when
    every title is a string.  When it completes, the header is one row
    holding the upper-cased titles in order (for a title of ASCII
    characters: the same characters with [a] to [z] replaced by [A] to
    [Z]) and the body is exactly the masked grid, whatever the page
    held before: a cell sits at row [row], column [col] if and only if
    [row < 5] and [col] is a category index, and it then has the
    identifier ["col-row"], the text ["?"] and no class. *)
Theorem renderCategories_idempotent {W : Type} (env : Env W)
  (cats : list Category) (s : State W) :
  let once := renderCategories env cats s in
  renderCategories env cats (snd once) = once
  /\ (fst once = Ok tt <-> Forall has_title cats)
  /\ (fst once = Ok tt ->
      (exists ths,
          thead (page (snd once)) = [ths]
          /\ Forall2 (fun category th =>
                        exists t, title category = JStr t
                                  /\ th = toUpperCase env t
                                  /\ (is_ascii t = true -> upper_cased t th))
                     cats ths)
      /\ forall row col cell,
          cell_at (tbody (page (snd once))) row col = Some cell
          <-> row < NUM_QUESTIONS_PER_CAT /\ col < length cats
              /\ cell = mkCell (cell_ident col row) "?" []).
Proof.
  intros once. subst once. rewrite !renderCategories_run.
  pose proof (header_texts_Some env cats) as Htitled.
  destruct (mapM (fun category => header_text env (title category)) cats)
    as [ths|] eqn:Hths; simpl.
  - split; [reflexivity|]. split.
    { split; [intros _; apply Htitled; eauto|reflexivity]. }
    intros _. split.
    + exists ths. split; [reflexivity|].
      apply mapM_Some_1 in Hths.
      eapply Forall2_impl; [exact Hths|].
      intros cat th. simpl. unfold header_text.
      destruct (title cat) as [| |t]; try discriminate.
      intros [= <-]. exists t. split; [reflexivity|].
      split; [reflexivity|]. apply toUpperCase_ascii.
    + intros row col cell. apply masked_grid_cell.
  - split; [reflexivity|]. split; [|discriminate].
    split; [discriminate|].
    intros Hall. apply Htitled in Hall. now destruct Hall.
Qed.

Lemma renderCategories_idempotent_witness :
  let cats := [mkCategory (JStr "Math") [mkClue "2+2" "4" JNull];
               mkCategory (JStr "Art & c.") []] in
  let s := mkState tt cats false
             (mkDom [["OLD"]] [[mkCell "0-0" "stale" ["showing-answer"]]]
                    true START_CAPTION) in
  let once := renderCategories offline cats s in
  (renderCategories offline cats (snd once) = once
   /\ fst once = Ok tt
   /\ (exists ths,
          thead (page (snd once)) = [ths]
          /\ Forall2 (fun category th =>
                        exists t, title category = JStr t
                                  /\ th = toUpperCase offline t
                                  /\ (is_ascii t = true -> upper_cased t th))
                     cats ths)
   /\ forall row col cell,
       cell_at (tbody (page (snd once))) row col = Some cell
       <-> row < NUM_QUESTIONS_PER_CAT /\ col < length cats
           /\ cell = mkCell (cell_ident col row) "?" [])
  /\ thead (page (snd once)) = [["MATH"; "ART & C."]]
  /\ tbody (page (snd once))
     = [[mkCell "0-0" "?" []; mkCell "1-0" "?" []];
        [mkCell "0-1" "?" []; mkCell "1-1" "?" []];
        [mkCell "0-2" "?" []; mkCell "1-2" "?" []];
        [mkCell "0-3" "?" []; mkCell "1-3" "?" []];
        [mkCell "0-4" "?" []; mkCell "1-4" "?" []]].
Proof.
  intros cats s once.
  destruct (renderCategories_idempotent offline cats s)
    as (Htwice & Hdone & Hgrid).
  assert (Hok : fst once = Ok tt).
  { apply Hdone. repeat constructor; eexists; reflexivity. }
  split; [|split; reflexivity].
  split; [exact Htwice|]. split; [exact Hok|].
  apply Hgrid. exact Hok.
Defined.

(** ** Cells without a clue *)

Lemma handleClick_cell_without_clue {W : Type} (s : State W) (c r : nat) :
  clue_at (categories s) c r = None ->
  handleClick (mkEvent (cell_ident c r)) s = (Throw TypeError, s).
Proof.
  unfold handleClick, clue_at, array_get. simpl target_id. cbv zeta.
  rewrite split_cell_ident. simpl.
  rewrite !array_index_string_of_nat. js_unfold.
  destruct (categories s !! c) as [cat|]; [|reflexivity]. simpl.
  now intros ->.
Qed.

(** C10. When the board holds, at index [catIdx], a category with fewer
    than five clues, the drawing of that board (which completes as soon
    as every title is a string) still has a cell ["catIdx-row"] for
    each row up to 4, the rows past the category's last clue included;
    a click on such a cell finds no clue and the handler throws a
    TypeError, leaving the state as it was. *)
Theorem short_category_cell_throws {W : Type} (env : Env W) (s : State W)
  (catIdx row : nat) (category : Category) :
  categories s !! catIdx = Some category ->
  length (clues category) <= row < NUM_QUESTIONS_PER_CAT ->
  (Forall has_title (categories s) ->
   forall s0 : State W,
   exists s1,
     renderCategories env (categories s) s0 = (Ok tt, s1)
     /\ cell_at (tbody (page s1)) row catIdx
        = Some (mkCell (cell_ident catIdx row) "?" []))
  /\ (forall s0 s1 : State W,
        renderCategories env (categories s) s0 = (Ok tt, s1) ->
        cell_at (tbody (page s1)) row catIdx
        = Some (mkCell (cell_ident catIdx row) "?" []))
  /\ clue_at (categories s) catIdx row = None
  /\ handleClick (mkEvent (cell_ident catIdx row)) s = (Throw TypeError, s).
Proof.
  intros Hcat [Hshort Hrow].
  assert (Hnone : clue_at (categories s) catIdx row = None).
  { unfold clue_at. rewrite Hcat. now apply lookup_ge_None. }
  assert (Hcell : cell_at (masked_grid (categories s)) row catIdx
                  = Some (mkCell (cell_ident catIdx row) "?" [])).
  { apply masked_grid_cell. split; [exact Hrow|].
    split; [|reflexivity]. now apply lookup_lt_Some in Hcat. }
  split; [|split; [|split; [exact Hnone|
                            now apply handleClick_cell_without_clue]]].
  - intros Htitled s0. rewrite renderCategories_run.
    apply (header_texts_Some env) in Htitled. destruct Htitled as [ths ->].
    eexists. split; [reflexivity|]. exact Hcell.
  - intros s0 s1. rewrite renderCategories_run.
    destruct (mapM _ (categories s)); [|discriminate].
    intros [= <-]. exact Hcell.
Qed.

Lemma short_category_cell_throws_witness :
  let art := mkCategory (JStr "Art") [mkClue "Q10" "A10" JNull;
                                      mkClue "Q11" "A11" JNull] in
  let s := mkState tt [art] true blank_page in
  ((forall s0 : State unit,
    exists s1,
      renderCategories offline (categories s) s0 = (Ok tt, s1)
      /\ cell_at (tbody (page s1)) 3 0 = Some (mkCell (cell_ident 0 3) "?" []))
   /\ (forall s0 s1 : State unit,
         renderCategories offline (categories s) s0 = (Ok tt, s1) ->
         cell_at (tbody (page s1)) 3 0
         = Some (mkCell (cell_ident 0 3) "?" []))
   /\ clue_at (categories s) 0 3 = None
   /\ handleClick (mkEvent (cell_ident 0 3)) s = (Throw TypeError, s))
  /\ fst (renderCategories offline (categories s) s) = Ok tt
  /\ cell_at (tbody (page (snd (renderCategories offline (categories s) s))))
             3 0
     = Some (mkCell "0-3" "?" []).
Proof.
  intros art s.
  destruct (short_category_cell_throws offline s 0 3 art)
    as (Hdraw & Hcell & Hnone & Hthrow).
  - reflexivity.
  - unfold NUM_QUESTIONS_PER_CAT. simpl. lia.
  - assert (Htitled : Forall has_title (categories s))
      by (repeat constructor; eexists; reflexivity).
    split; [|split; reflexivity].
    split; [exact (Hdraw Htitled)|].
    split; [exact Hcell|]. split; [exact Hnone|exact Hthrow].
Defined.

(** ** Sampling the category ids *)

Lemma swap_Permutation {A : Type} (l : list A) (i j : nat) (x y : A) :
  l !! i = Some x -> l !! j = Some y ->
  <[j := x]> (<[i := y]> l) ≡ₚ l.
Proof.
  intros Hi Hj.
  pose proof (lookup_lt_Some _ _ _ Hi) as Hil.
  pose proof (lookup_lt_Some _ _ _ Hj) as Hjl.
  apply Permutation_inj. split; [now rewrite !length_insert|].
  exists (fun k => if decide (k = j) then i else if decide (k = i) then j else k).
  split.
  - intros a b. repeat case_decide; subst; congruence.
  - intros k. destruct (decide (k = j)) as [->|Hkj].
    + rewrite list_lookup_insert_eq by now rewrite length_insert.
      now rewrite Hi.
    + rewrite list_lookup_insert_ne by congruence.
      destruct (decide (k = i)) as [->|Hki].
      * rewrite list_lookup_insert_eq by assumption. now rewrite Hj.
      * now rewrite list_lookup_insert_ne by congruence.
Qed.

Section Runs.
Context {W : Type} (env : Env W).

Lemma random_floor_run (n : nat) (s : State W) :
  exists k s', random_floor env n s = (Ok k, s') /\ same_script_state s s'.
Proof.
  unfold random_floor. destruct (random_draw env (world s)) as [k w'].
  eexists _, _. split; [reflexivity|]. now unfold same_script_state.
Qed.

Lemma shuffle_loop_run {A : Type} (steps index lastIndex : nat)
  (array : list A) (s : State W) :
  exists shuffled s',
    shuffle_loop env steps index lastIndex array s = (Ok shuffled, s')
    /\ shuffled ≡ₚ array
    /\ same_script_state s s'.
Proof.
  revert index array s.
  induction steps as [|steps IH]; intros index array s; simpl.
  - exists array, s. now unfold same_script_state.
  - unfold baseRandom. js_unfold.
    destruct (random_floor_run (lastIndex - index + 1) s)
      as (k & s1 & -> & H1).
    match goal with
    | |- context [shuffle_loop env steps (S index) lastIndex ?a s1] =>
        destruct (IH (S index) a s1) as (sh & s2 & -> & Hperm & H2);
        exists sh, s2; split; [reflexivity|]; split
    end.
    + rewrite Hperm.
      destruct (array !! (index + k)) as [value|] eqn:Hr; [|reflexivity].
      destruct (array !! index) as [at_index|] eqn:Hi; [|reflexivity].
      now apply swap_Permutation.
    + unfold same_script_state in *. intuition congruence.
Qed.

Lemma sampleSize_run {A : Type} (array : list A) (n : nat) (s : State W) :
  exists sample s',
    sampleSize env array n s = (Ok sample, s')
    /\ sample ⊆+ array
    /\ length sample = n `min` length array
    /\ same_script_state s s'.
Proof.
  unfold sampleSize, shuffleSelf. js_unfold.
  destruct (shuffle_loop_run (n `min` length array) 0 (length array - 1)
              array s) as (sh & s' & -> & Hperm & Hs).
  exists (take (n `min` length array) sh), s'.
  split; [reflexivity|]. split; [|split; [|exact Hs]].
  - etrans; [apply submseteq_take|]. now apply Permutation_submseteq.
  - rewrite length_take, (Permutation_length Hperm). lia.
Qed.

Lemma getCategoriesIds_run (s : State W) :
  exists ids s',
    getCategoriesIds env s = (Ok ids, s')
    /\ same_script_state s s'
    /\ match fst (categories_endpoint env (world s)) with
       | Rejected => ids = []
       | Resolved data =>
           ids ⊆+ (cat_id <$> data)
           /\ length ids = NUM_CATEGORIES `min` length data
       end.
Proof.
  unfold getCategoriesIds, axios_get_categories. js_unfold.
  destruct (categories_endpoint env (world s)) as [[|data] w']; simpl.
  - eexists _, _. split; [reflexivity|]. now unfold same_script_state.
  - destruct (sampleSize_run (cat_id <$> data) NUM_CATEGORIES
                (set_world w' s)) as (ids & s' & -> & Hsub & Hlen & Hs).
    exists ids, s'. split; [reflexivity|].
    rewrite length_fmap in Hlen. auto.
Qed.

Lemma submseteq_NoDup {A : Type} (l k : list A) :
  l ⊆+ k -> NoDup k -> NoDup l.
Proof.
  intros Hsub Hk. apply submseteq_Permutation in Hsub as [rest Hperm].
  rewrite Hperm in Hk. now apply NoDup_app in Hk as [? _].
Qed.

(** C5, as the code has it. When the category-list request resolves,
    [getCategoriesIds] returns [min 6 n] ids for a pool of [n]
    records, hence at most 6; the ids are taken from pairwise
    distinct positions of the pool (a sub-multiset of it), so each one
    is an id of the pool, and they are free of duplicates whenever the
    pool's ids are. *)
Theorem getCategoriesIds_sample (s : State W)
  (data : list CategorySummary) (w' : W) :
  categories_endpoint env (world s) = (Resolved data, w') ->
  exists ids s',
    getCategoriesIds env s = (Ok ids, s')
    /\ length ids = NUM_CATEGORIES `min` length data
    /\ length ids <= NUM_CATEGORIES
    /\ ids ⊆+ (cat_id <$> data)
    /\ (forall catId, catId ∈ ids -> catId ∈ cat_id <$> data)
    /\ (NoDup (cat_id <$> data) -> NoDup ids).
Proof.
  intros Hreply.
  destruct (getCategoriesIds_run s) as (ids & s' & Hrun & _ & Hids).
  rewrite Hreply in Hids. cbn [fst] in Hids. destruct Hids as [Hsub Hlen].
  exists ids, s'. split; [exact Hrun|]. split; [exact Hlen|].
  split; [lia|]. split; [exact Hsub|]. split.
  - intros catId Hin. eapply elem_of_submseteq; eauto.
  - now apply submseteq_NoDup.
Qed.

(** *** Fetching the categories *)

Lemma getCategory_run (catId : Z) (s : State W) :
  getCategory env catId s
  = match category_endpoint env catId (world s) with
    | (Resolved data, w') => (Ok (Some (trimmed data)), set_world w' s)
    | (Rejected, w') => (Ok None, set_world w' s)
    end.
Proof.
  unfold getCategory, axios_get_category. js_unfold.
  now destruct (category_endpoint env catId (world s)) as [[|data] w'].
Qed.

(** C6. When the category-detail request resolves, [getCategory]
    returns a category (not the sentinel) with the response's title
    whose clue list is the first five clues of the response, in
    order, or all of them when there are fewer: position [i] holds a
    clue exactly when [i < 5] and the response has a clue there, and
    it is that clue with [showing] overwritten by [null]. *)
Theorem getCategory_trims_and_hides (catId : Z) (s : State W)
  (data : Category) (w' : W) :
  category_endpoint env catId (world s) = (Resolved data, w') ->
  exists category,
    getCategory env catId s = (Ok (Some category), set_world w' s)
    /\ title category = title data
    /\ length (clues category)
       = NUM_QUESTIONS_PER_CAT `min` length (clues data)
    /\ forall i clue,
        clues category !! i = Some clue
        <-> i < NUM_QUESTIONS_PER_CAT
            /\ exists raw, clues data !! i = Some raw
                 /\ clue = mkClue (question raw) (answer raw) JNull.
Proof.
  intros Hreply. exists (trimmed data).
  rewrite getCategory_run, Hreply.
  split; [reflexivity|]. split; [reflexivity|]. split.
  - simpl. now rewrite length_fmap, length_take.
  - intros i clue. simpl. rewrite list_lookup_fmap, lookup_take.
    destruct (decide (i < NUM_QUESTIONS_PER_CAT)) as [Hi|Hi].
    + destruct (clues data !! i) as [raw|]; simpl.
      * split.
        -- intros [= <-]. split; [exact Hi|]. now exists raw.
        -- intros (_ & raw' & [= <-] & ->). reflexivity.
      * split; [discriminate|]. now intros (_ & raw' & ? & _).
    + simpl. split; [discriminate|]. intros [? _]. contradiction.
Qed.

Lemma bind_run {A B : Type} (m : JS (State W) A) (f : A -> JS (State W) B)
  (s : State W) :
  (m ≫= f) s
  = match m s with
    | (Ok a, s') => f a s'
    | (Throw e, s') => (Throw e, s')
    end.
Proof. reflexivity. Qed.

Lemma fetch_loop_run (ids : list Z) (s : State W) :
  for_of ids (fun catId =>
    category ← getCategory env catId;
    match category with
    | Some c => modify (fun s => set_categories (categories s ++ [c]) s)
    | None => mret tt
    end) s
  = (Ok tt,
     mkState (snd (replies env ids (world s)))
             (categories s
              ++ (trimmed <$> omap resolved (fst (replies env ids (world s)))))
             (gameStarted s) (page s)).
Proof.
  revert s. induction ids as [|catId ids IH]; intros s.
  - simpl. rewrite app_nil_r. now destruct s.
  - simpl for_of. rewrite !bind_run, getCategory_run. simpl replies.
    destruct (category_endpoint env catId (world s)) as [[|data] w1].
    + js_unfold. rewrite IH. simpl.
      now destruct (replies env ids w1).
    + js_unfold. rewrite IH. simpl.
      destruct (replies env ids w1). simpl.
      now rewrite <- app_assoc.
Qed.

Lemma showLoadingView_run (s : State W) :
  showLoadingView s
  = (Ok tt, set_page (mkDom [] [] true (start_text (page s))) s).
Proof. reflexivity. Qed.

(** A whole run of [setupAndStart], in closed form. *)
Lemma setupAndStart_run (s : State W) :
  exists ids s1,
    getCategoriesIds env (snd (showLoadingView s)) = (Ok ids, s1)
    /\ setupAndStart env s
       = let rs := replies env ids (world s1) in
         let cats := trimmed <$> omap resolved (fst rs) in
         match mapM (fun category => header_text env (title category)) cats with
         | Some ths =>
             (Ok tt,
              mkState (snd rs) cats (negb (gameStarted s))
                (mkDom [ths] (masked_grid cats) false
                       (if negb (gameStarted s) then RESTART_CAPTION
                        else START_CAPTION)))
         | None =>
             (Throw TypeError,
              mkState (snd rs) cats (gameStarted s)
                (mkDom [] [] true (start_text (page s))))
         end.
Proof.
  rewrite showLoadingView_run. simpl snd.
  destruct (getCategoriesIds_run
              (set_page (mkDom [] [] true (start_text (page s))) s))
    as (ids & s1 & Hids & (Hc & Hg & Hp) & _).
  exists ids, s1. split; [exact Hids|].
  unfold setupAndStart.
  rewrite bind_run, showLoadingView_run.
  rewrite bind_run, Hids.
  rewrite bind_run. unfold modify at 1.
  rewrite bind_run, fetch_loop_run. simpl.
  rewrite bind_run. unfold gets at 1.
  rewrite bind_run, renderCategories_run. simpl.
  destruct (mapM _ _) as [ths|]; [|now rewrite Hg, Hp].
  rewrite Hg, Hp. simpl.
  now destruct (gameStarted s).
Qed.




Lemma setupAndStart_categories (s : State W) :
  exists ids s1,
    getCategoriesIds env (snd (showLoadingView s)) = (Ok ids, s1)
    /\ length ids <= NUM_CATEGORIES
    /\ categories (snd (setupAndStart env s))
       = trimmed <$> omap resolved (fst (replies env ids (world s1))).
Proof.
  destruct (setupAndStart_run s) as (ids & s1 & Hids & ->).
  exists ids, s1. split; [exact Hids|]. split.
  - destruct (getCategoriesIds_run (snd (showLoadingView s)))
      as (ids' & s1' & Hids' & _ & Hm).
    rewrite Hids in Hids'. injection Hids' as <- <-.
    destruct (fst (categories_endpoint env _));
      [subst; simpl; lia | destruct Hm; lia].
  - cbv zeta. now destruct (mapM _ _).
Qed.


(** What the fetchers make of a rejected request, and the board and
    the table after a run taken in one piece. *)
Lemma whole_run_fetches (s : State W) :
  (forall w', categories_endpoint env (world s) = (Rejected, w') ->
              getCategoriesIds env s = (Ok [], set_world w' s))
  /\ (forall catId w',
         category_endpoint env catId (world s) = (Rejected, w') ->
         getCategory env catId s = (Ok None, set_world w' s))
  /\ exists ids s1,
       getCategoriesIds env (snd (showLoadingView s)) = (Ok ids, s1)
       /\ let served := omap resolved (fst (replies env ids (world s1))) in
          let s' := snd (setupAndStart env s) in
          categories s' = trimmed <$> served
          /\ (fst (setupAndStart env s) = Ok tt ->
              tbody (page s') = masked_grid (categories s')
              /\ exists ths,
                   thead (page s') = [ths]
                   /\ Forall2 (fun data th =>
                                 exists t, title data = JStr t
                                           /\ th = toUpperCase env t
                                           /\ (is_ascii t = true ->
                                               upper_cased t th))
                              served ths).
Proof.
  split; [|split].
  - intros w' Hreply.
    unfold getCategoriesIds, axios_get_categories. js_unfold.
    now rewrite Hreply.
  - intros catId w' Hreply. now rewrite getCategory_run, Hreply.
  - destruct (setupAndStart_run s) as (ids & s1 & Hids & ->).
    exists ids, s1. split; [exact Hids|]. cbv zeta.
    destruct (mapM _ _) as [ths|] eqn:Hths; simpl.
    + split; [reflexivity|]. intros _. split; [reflexivity|].
      exists ths. split; [reflexivity|].
      apply mapM_Some_1, Forall2_fmap_l in Hths.
      eapply Forall2_impl; [exact Hths|].
      intros data th. simpl. unfold header_text.
      destruct (title data) as [| |t]; try discriminate.
      intros [= <-]. exists t. split; [reflexivity|].
      split; [reflexivity|]. apply toUpperCase_ascii.
    + split; [reflexivity|]. discriminate.
Qed.

(** The flag and the caption after a run taken in one piece. *)
Lemma whole_run_flag (s : State W) :
  let s' := snd (setupAndStart env s) in
  match fst (setupAndStart env s) with
  | Ok _ =>
      gameStarted s' = negb (gameStarted s)
      /\ start_text (page s')
         = (if gameStarted s' then RESTART_CAPTION else START_CAPTION)
  | Throw _ =>
      gameStarted s' = gameStarted s
      /\ start_text (page s') = start_text (page s)
  end.
Proof.
  intros s'. subst s'.
  destruct (setupAndStart_run s) as (ids & s1 & _ & ->). cbv zeta.
  destruct (mapM _ _); simpl; auto.
Qed.
End Runs.

(** ** The script on concrete worlds *)

Lemma getCategoriesIds_sample_witness :
  let pool := mkSummary <$> [1; 2; 3; 4; 5; 6; 7; 8]%Z in
  let s := fresh (demo_world [1; 2; 3; 4; 5; 6; 7; 8]%Z [3; 1; 4; 1; 5; 9]) in
  exists ids s',
    getCategoriesIds scripted s = (Ok ids, s')
    /\ length ids = NUM_CATEGORIES `min` length pool
    /\ length ids <= NUM_CATEGORIES
    /\ ids ⊆+ (cat_id <$> pool)
    /\ (forall catId, catId ∈ ids -> catId ∈ cat_id <$> pool)
    /\ (NoDup (cat_id <$> pool) -> NoDup ids).
Proof.
  intros pool s.
  apply (getCategoriesIds_sample scripted s pool (world s)).
  reflexivity.
Defined.

(** C5, as stated, fails on a pool that lists an id twice: both copies
    are returned. *)
Lemma getCategoriesIds_repeats_pool_duplicates :
  let s := fresh (demo_world [7; 7]%Z []) in
  categories_endpoint scripted (world s)
  = (Resolved [mkSummary 7; mkSummary 7], world s)
  /\ fst (getCategoriesIds scripted s) = Ok [7; 7]%Z
  /\ ~ NoDup [7; 7]%Z.
Proof.
  intros s. split; [reflexivity|]. split; [reflexivity|].
  intros Hnd. apply NoDup_cons in Hnd as [Hnotin _].
  apply Hnotin. now left.
Qed.

Lemma getCategory_trims_and_hides_witness :
  let s := fresh (demo_world [1]%Z []) in
  let data := mkCategory (JStr "Math") (demo_clue <$> seq 0 7) in
  exists category,
    getCategory scripted 1 s = (Ok (Some category), set_world (world s) s)
    /\ title category = title data
    /\ length (clues category)
       = NUM_QUESTIONS_PER_CAT `min` length (clues data)
    /\ forall i clue,
        clues category !! i = Some clue
        <-> i < NUM_QUESTIONS_PER_CAT
            /\ exists raw, clues data !! i = Some raw
                 /\ clue = mkClue (question raw) (answer raw) JNull.
Proof.
  intros s data.
  apply (getCategory_trims_and_hides scripted 1 s data (world s)).
  reflexivity.
Defined.


(** A rejected category-list request does not stop the run: it
    completes with an empty board and the flag flipped. *)
Example setupAndStart_completes_without_service :
  let s := fresh (mkScripted Rejected demo_detail []) in
  let run := setupAndStart scripted s in
  fst run = Ok tt
  /\ categories (snd run) = []
  /\ gameStarted (snd run) = true
  /\ start_text (page (snd run)) = RESTART_CAPTION.
Proof. repeat split. Qed.

(** A category without a title makes the drawing, and so the run,
    throw: the flag stays and the spinner is left on. *)
Example setupAndStart_throws_on_missing_title :
  let s := fresh (demo_world [3]%Z []) in
  let run := setupAndStart scripted s in
  fst run = Throw TypeError
  /\ gameStarted (snd run) = false
  /\ spinner (page (snd run)) = true.
Proof. repeat split. Qed.

(** The second completed run flips the flag back and restores the start
    caption. *)
Example setupAndStart_twice :
  let s := fresh (demo_world [1; 2]%Z [1; 0]) in
  let s2 := snd (setupAndStart scripted (snd (setupAndStart scripted s))) in
  gameStarted s2 = false /\ start_text (page s2) = START_CAPTION.
Proof. repeat split. Qed.

(** The walk of the spec's scenario: a hidden clue shows its question,
    then its answer with the marker class, then ignores the click. *)
Example three_clicks :
  let s := snd (setupAndStart scripted (fresh (demo_world [1]%Z []))) in
  let s1 := dispatch handleClick s (mkEvent "0-3") in
  let s2 := dispatch handleClick s1 (mkEvent "0-3") in
  let s3 := dispatch handleClick s2 (mkEvent "0-3") in
  cell_at (tbody (page s1)) 3 0 = Some (mkCell "0-3" "Q3" [])
  /\ showing <$> clue_at (categories s1) 0 3 = Some (JStr "question")
  /\ cell_at (tbody (page s2)) 3 0 = Some (mkCell "0-3" "A3" ["showing-answer"])
  /\ showing <$> clue_at (categories s2) 0 3 = Some (JStr "answer")
  /\ s3 = s2.
Proof. repeat split. Qed.

(** ** Cell identifiers *)

Lemma cell_ident_inj_aux (c r c' r' : nat) :
  cell_ident c r = cell_ident c' r' -> c = c' /\ r = r'.
Proof.
  intros Heq.
  pose proof (addressed_cell_ident c r) as H1.
  rewrite Heq, addressed_cell_ident in H1.
  now injection H1 as <- <-.
Qed.

(** ** Selecting by id *)

Lemma update_first_none {A : Type} (p : A -> bool) (f : A -> A) (l : list A) :
  Forall (fun x => p x = false) l -> update_first p f l = None.
Proof.
  induction 1 as [|x l Hx _ IH]; simpl; [reflexivity|].
  now rewrite Hx, IH.
Qed.

Lemma update_first_unique {A : Type} (p : A -> bool) (f : A -> A)
  (l : list A) (i : nat) :
  (forall j y, l !! j = Some y -> (p y = true <-> j = i)) ->
  update_first p f l
  = if decide (i < length l) then Some (alter f i l) else None.
Proof.
  revert i. induction l as [|x l IH]; intros i Hp; simpl.
  - destruct (decide (i < 0)); [lia|reflexivity].
  - destruct i as [|i].
    + rewrite decide_True by lia.
      assert (p x = true) as -> by now apply (Hp 0 x).
      reflexivity.
    + assert (p x = false) as ->.
      { destruct (p x) eqn:Hx; [|reflexivity].
        now apply (Hp 0 x eq_refl) in Hx. }
      rewrite (IH i).
      * destruct (decide (i < length l)), (decide (S i < S (length l)));
          try lia; reflexivity.
      * intros j y Hj. rewrite (Hp (S j) y Hj). lia.
Qed.

Lemma alter_out_of_range {A : Type} (f : A -> A) (l : list A) (i : nat) :
  length l <= i -> alter f i l = l.
Proof.
  intros Hi. apply list_eq. intros j. rewrite list_lookup_alter.
  destruct (decide (i = j)) as [<-|]; [|reflexivity].
  now rewrite (lookup_ge_None_2 l i).
Qed.

Lemma update_first_row_none {A : Type} (p : A -> bool) (f : A -> A)
  (rows : list (list A)) :
  Forall (Forall (fun x => p x = false)) rows ->
  update_first_row p f rows = rows.
Proof.
  induction 1 as [|row rows Hrow _ IH]; simpl; [reflexivity|].
  now rewrite (update_first_none p f row Hrow), IH.
Qed.

Lemma update_first_row_unique {A : Type} (p : A -> bool) (f : A -> A)
  (rows : list (list A)) (r c : nat) :
  (forall r' c' row y,
      rows !! r' = Some row -> row !! c' = Some y ->
      (p y = true <-> r' = r /\ c' = c)) ->
  update_first_row p f rows = alter (alter f c) r rows.
Proof.
  revert r. induction rows as [|row rows IH]; intros r Hp; [reflexivity|].
  simpl. destruct r as [|r].
  - rewrite (update_first_unique p f row c).
    + destruct (decide (c < length row)) as [Hc|Hc]; [reflexivity|].
      rewrite update_first_row_none.
      * simpl. f_equal. symmetry. apply alter_out_of_range. lia.
      * apply Forall_forall. intros row' [r' Hr']%list_elem_of_lookup.
        apply Forall_forall. intros y [c' Hc']%list_elem_of_lookup.
        destruct (p y) eqn:Hy; [|reflexivity].
        apply (Hp (S r') c' row' y Hr' Hc') in Hy as [? _]. lia.
    + intros j y Hj. rewrite (Hp 0 j row y eq_refl Hj). intuition.
  - rewrite update_first_none.
    + simpl. f_equal. apply IH.
      intros r' c' row' y Hr' Hc'. rewrite (Hp (S r') c' row' y Hr' Hc'). lia.
    + apply Forall_forall. intros y [c' Hc']%list_elem_of_lookup.
      destruct (p y) eqn:Hy; [|reflexivity].
      apply (Hp 0 c' row y eq_refl Hc') in Hy as [? _]. lia.
Qed.

Lemma cell_at_alter (g : Cell -> Cell) (c r : nat) (rows : list (list Cell))
  (row col : nat) :
  cell_at (alter (alter g c) r rows) row col
  = if decide ((row, col) = (r, c)) then g <$> cell_at rows r c
    else cell_at rows row col.
Proof.
  unfold cell_at. rewrite list_lookup_alter.
  destruct (decide (r = row)) as [->|Hr].
  - destruct (rows !! row) as [cells|]; simpl.
    + rewrite list_lookup_alter.
      destruct (decide (c = col)) as [->|Hc].
      * now rewrite decide_True.
      * rewrite decide_False; [reflexivity|congruence].
    + now destruct (decide _).
  - rewrite decide_False; [reflexivity|congruence].
Qed.

Lemma by_id_in_place (g : Cell -> Cell) (c r : nat) (rows : list (list Cell)) :
  ids_in_place rows ->
  update_first_row (fun x => String.eqb (cell_id x) (cell_ident c r)) g rows
  = alter (alter g c) r rows.
Proof.
  intros Hids. apply update_first_row_unique.
  intros r' c' row y Hr Hc.
  assert (Hid : cell_id y = cell_ident c' r').
  { apply Hids. unfold cell_at. now rewrite Hr. }
  rewrite Hid, String.eqb_eq. split.
  - intros Heq%cell_ident_inj_aux. tauto.
  - now intros [-> ->].
Qed.

Lemma ids_in_place_alter (g : Cell -> Cell) (c r : nat)
  (rows : list (list Cell)) :
  (forall x, cell_id (g x) = cell_id x) ->
  ids_in_place rows -> ids_in_place (alter (alter g c) r rows).
Proof.
  intros Hg Hids row col cell. rewrite cell_at_alter.
  destruct (decide ((row, col) = (r, c))) as [[= -> ->]|_]; [|apply Hids].
  destruct (cell_at rows r c) as [x|] eqn:Hx; [|discriminate].
  intros [= <-]. rewrite Hg. now apply Hids.
Qed.

Lemma alter_alter_grid (g2 g1 : Cell -> Cell) (c r : nat)
  (rows : list (list Cell)) :
  alter (alter g2 c) r (alter (alter g1 c) r rows)
  = alter (alter (g2 ∘ g1) c) r rows.
Proof.
  apply list_eq. intros i. rewrite !list_lookup_alter.
  destruct (decide (r = i)) as [->|]; [|reflexivity].
  rewrite decide_True by reflexivity.
  destruct (rows !! i) as [cells|]; simpl; [|reflexivity].
  f_equal. apply list_alter_alter_eq.
Qed.

(** ** The view of a board *)

Lemma board_view_lookup (cats : list Category) (row : nat) :
  board_view cats !! row
  = if decide (row < NUM_QUESTIONS_PER_CAT) then Some (row_view cats row)
    else None.
Proof.
  unfold board_view. rewrite list_lookup_fmap.
  destruct (decide (row < NUM_QUESTIONS_PER_CAT)) as [Hlt|Hge].
  - now rewrite lookup_seq_lt.
  - rewrite lookup_seq_ge; [reflexivity|lia].
Qed.

Lemma cell_at_board_view (cats : list Category) (row col : nat) :
  cell_at (board_view cats) row col
  = if decide (row < NUM_QUESTIONS_PER_CAT)
    then cell_view col row <$> cats !! col
    else None.
Proof.
  unfold cell_at. rewrite board_view_lookup.
  destruct (decide _); [|reflexivity].
  unfold row_view. now rewrite list_lookup_imap.
Qed.

Lemma cell_view_id (c r : nat) (category : Category) :
  cell_id (cell_view c r category) = cell_ident c r.
Proof.
  unfold cell_view. destruct (clues category !! r) as [clue|]; [|reflexivity].
  now destruct (revealState (showing clue)).
Qed.

Lemma board_view_ids (cats : list Category) : ids_in_place (board_view cats).
Proof.
  intros row col cell. rewrite cell_at_board_view.
  destruct (decide _); [|discriminate].
  destruct (cats !! col) as [cat|]; [|discriminate].
  intros [= <-]. apply cell_view_id.
Qed.

Lemma board_view_write_showing (cats : list Category) (c r : nat) (v : jsval)
  (category : Category) (g : Cell -> Cell) :
  cats !! c = Some category ->
  g (cell_view c r category)
  = cell_view c r
      (set_clues (alter (set_showing v) r (clues category)) category) ->
  alter (alter g c) r (board_view cats)
  = board_view (write_showing c r v cats).
Proof.
  intros Hcat Hg. apply list_eq. intros i.
  rewrite list_lookup_alter.
  destruct (decide (r = i)) as [->|Hne]; rewrite !board_view_lookup;
    (destruct (decide (i < NUM_QUESTIONS_PER_CAT)) as [Hi|Hi];
     [|reflexivity]); simpl; f_equal;
    apply list_eq; intros j; unfold row_view, write_showing;
    rewrite ?list_lookup_alter, !list_lookup_imap, list_lookup_alter.
  - destruct (decide (c = j)) as [->|]; [|reflexivity].
    rewrite Hcat. simpl. now rewrite Hg.
  - destruct (decide (c = j)) as [->|]; [|reflexivity].
    destruct (cats !! j) as [cat|]; [|reflexivity]. simpl. f_equal.
    unfold cell_view. simpl.
    now rewrite list_lookup_alter_ne by congruence.
Qed.

Lemma board_view_hidden (cats : list Category) :
  all_clues (fun clue => revealState (showing clue) = Hidden) cats ->
  board_view cats = masked_grid cats.
Proof.
  intros Hall. unfold board_view, masked_grid, row_view, masked_row.
  apply list_fmap_ext. intros _ r _.
  apply list_eq. intros j. rewrite !list_lookup_imap.
  destruct (cats !! j) as [cat|] eqn:Hcat; [|reflexivity]. simpl. f_equal.
  unfold cell_view.
  destruct (clues cat !! r) as [clue|] eqn:Hclue; [|reflexivity].
  unfold all_clues in Hall. rewrite Forall_lookup in Hall.
  specialize (Hall j cat Hcat). rewrite Forall_lookup in Hall.
  now rewrite (Hall r clue Hclue).
Qed.

Lemma handleClick_cell_run {W : Type} (s : State W) (c r : nat) (clue : Clue) :
  clue_at (categories s) c r = Some clue ->
  handleClick (mkEvent (cell_ident c r)) s
  = (Ok tt,
     match revealState (showing clue) with
     | Hidden =>
         mkState (world s)
           (write_showing c r (JStr "question") (categories s))
           (gameStarted s)
           (by_id (set_text (question clue)) (cell_ident c r) (page s))
     | Question =>
         mkState (world s)
           (write_showing c r (JStr "answer") (categories s))
           (gameStarted s)
           (by_id (add_class "showing-answer") (cell_ident c r)
              (by_id (set_text (answer clue)) (cell_ident c r) (page s)))
     | Answer => s
     end).
Proof.
  unfold handleClick, clue_at, array_get. simpl target_id. cbv zeta.
  rewrite split_cell_ident. simpl.
  rewrite !array_index_string_of_nat. js_unfold.
  destruct (categories s !! c) as [cat|]; [|discriminate]. simpl.
  intros ->. simpl. unfold revealState.
  destruct (truthy (showing clue)); simpl; [|reflexivity].
  now destruct (strict_eq_str (showing clue) "question").
Qed.

Lemma trimmed_all_hidden (served : list Category) :
  all_clues (fun clue => showing clue = JNull) (trimmed <$> served).
Proof.
  unfold all_clues. apply Forall_fmap, Forall_forall. intros data _. simpl.
  apply Forall_fmap, Forall_forall. now intros clue _.
Qed.

Lemma all_clues_impl (P Q : Clue -> Prop) (cats : list Category) :
  (forall clue, P clue -> Q clue) -> all_clues P cats -> all_clues Q cats.
Proof.
  intros HPQ Hall. unfold all_clues in *.
  eapply Forall_impl; [exact Hall|].
  intros cat Hcat. eapply Forall_impl; [exact Hcat|exact HPQ].
Qed.

Lemma all_clues_write_showing (P : Clue -> Prop) (c r : nat) (v : jsval)
  (cats : list Category) :
  (forall clue, P clue -> P (set_showing v clue)) ->
  all_clues P cats -> all_clues P (write_showing c r v cats).
Proof.
  intros HP Hall. unfold all_clues, write_showing.
  apply Forall_alter; [exact Hall|].
  intros cat _ Hcat. simpl. apply Forall_alter; [exact Hcat|].
  intros clue _. apply HP.
Qed.

Lemma update_first_ids (p : Cell -> bool) (f : Cell -> Cell) (l l' : list Cell) :
  (forall x, cell_id (f x) = cell_id x) ->
  update_first p f l = Some l' -> cell_id <$> l' = cell_id <$> l.
Proof.
  intros Hf. revert l'. induction l as [|x l IH]; intros l'; simpl;
    [discriminate|].
  destruct (p x).
  - intros [= <-]. rewrite !fmap_cons. now rewrite Hf.
  - destruct (update_first p f l) as [l''|]; [|discriminate].
    intros [= <-]. rewrite !fmap_cons. now rewrite (IH l'' eq_refl).
Qed.

Lemma update_first_row_ids (p : Cell -> bool) (f : Cell -> Cell)
  (rows : list (list Cell)) :
  (forall x, cell_id (f x) = cell_id x) ->
  fmap (M := list) cell_id <$> update_first_row p f rows
  = fmap (M := list) cell_id <$> rows.
Proof.
  intros Hf. induction rows as [|row rows IH]; [reflexivity|]. simpl.
  destruct (update_first p f row) as [row'|] eqn:Hrow; rewrite !fmap_cons.
  - now rewrite (update_first_ids p f row row' Hf Hrow).
  - now rewrite IH.
Qed.

Section Extras.
Context {W : Type} (env : Env W).

Lemma random_floor_world (n : nat) (s t : State W) :
  world s = world t ->
  fst (random_floor env n s) = fst (random_floor env n t)
  /\ world (snd (random_floor env n s)) = world (snd (random_floor env n t)).
Proof.
  intros Hw. unfold random_floor. rewrite Hw.
  now destruct (random_draw env (world t)).
Qed.

Lemma shuffle_loop_world {A : Type} (steps index lastIndex : nat)
  (array : list A) (s t : State W) :
  world s = world t ->
  fst (shuffle_loop env steps index lastIndex array s)
  = fst (shuffle_loop env steps index lastIndex array t)
  /\ world (snd (shuffle_loop env steps index lastIndex array s))
     = world (snd (shuffle_loop env steps index lastIndex array t)).
Proof.
  revert index array s t.
  induction steps as [|steps IH]; intros index array s t Hw; simpl; [auto|].
  unfold baseRandom. js_unfold. unfold random_floor. rewrite Hw.
  destruct (random_draw env (world t)) as [k w']. apply IH. reflexivity.
Qed.

Lemma getCategoriesIds_world (s t : State W) :
  world s = world t ->
  fst (getCategoriesIds env s) = fst (getCategoriesIds env t)
  /\ world (snd (getCategoriesIds env s))
     = world (snd (getCategoriesIds env t)).
Proof.
  intros Hw. unfold getCategoriesIds, axios_get_categories. js_unfold.
  rewrite Hw.
  destruct (categories_endpoint env (world t)) as [[|data] w']; simpl; [auto|].
  unfold sampleSize, shuffleSelf. js_unfold.
  set (n := NUM_CATEGORIES `min` length (cat_id <$> data)).
  set (last := length (cat_id <$> data) - 1).
  destruct (shuffle_loop_world n 0 last (cat_id <$> data)
              (set_world w' s) (set_world w' t) eq_refl) as [Hf Hs].
  destruct (shuffle_loop env n 0 last (cat_id <$> data) (set_world w' s))
    as [[sh|e] s1];
  destruct (shuffle_loop env n 0 last (cat_id <$> data) (set_world w' t))
    as [[sh'|e'] t1]; simpl in *; try discriminate; auto.
  now injection Hf as <-.
Qed.
End Extras.

(** ** Clicks on the cells of a board *)

Lemma click_in_step {W : Type} (s : State W) (c r : nat) :
  tbody (page s) = board_view (categories s) ->
  tbody (page (dispatch handleClick s (mkEvent (cell_ident c r))))
  = board_view (categories (dispatch handleClick s (mkEvent (cell_ident c r)))).
Proof.
  intros Hsync. unfold dispatch.
  destruct (clue_at (categories s) c r) as [clue|] eqn:Hclue.
  - rewrite (handleClick_cell_run s c r clue Hclue). simpl snd.
    pose proof Hclue as Hc2. unfold clue_at in Hc2.
    destruct (categories s !! c) as [cat|] eqn:Hcat; [|discriminate].
    destruct (revealState (showing clue)) eqn:Hst; simpl.
    + rewrite Hsync, by_id_in_place by apply board_view_ids.
      apply (board_view_write_showing _ _ _ _ cat); [exact Hcat|].
      unfold cell_view. simpl.
      now rewrite list_lookup_alter_eq, Hc2, Hst.
    + rewrite Hsync.
      rewrite (by_id_in_place (set_text (answer clue)) c r (board_view _))
        by apply board_view_ids.
      rewrite by_id_in_place
        by (apply ids_in_place_alter; [reflexivity|apply board_view_ids]).
      rewrite alter_alter_grid.
      apply (board_view_write_showing _ _ _ _ cat); [exact Hcat|].
      unfold cell_view. simpl.
      now rewrite list_lookup_alter_eq, Hc2, Hst.
    + exact Hsync.
  - now rewrite handleClick_cell_without_clue.
Qed.

Lemma handleClick_page {W : Type} (s : State W) (evt : Event) :
  thead (page (snd (handleClick evt s))) = thead (page s)
  /\ spinner (page (snd (handleClick evt s))) = spinner (page s)
  /\ start_text (page (snd (handleClick evt s))) = start_text (page s)
  /\ cell_ids (tbody (page (snd (handleClick evt s))))
     = cell_ids (tbody (page s)).
Proof.
  unfold handleClick, array_get, cell_ids. js_unfold.
  destruct (split "-" (target_id evt) !! 0%nat) as [catId|]; simpl; auto.
  destruct (array_index catId) as [c|]; simpl; auto.
  destruct (categories s !! c) as [cat|]; simpl; auto.
  destruct (split "-" (target_id evt) !! 1%nat) as [clueId|]; simpl; auto.
  destruct (array_index clueId) as [r|]; simpl; auto.
  destruct (clues cat !! r) as [clue|]; simpl; auto.
  destruct (truthy (showing clue)); simpl.
  - destruct (strict_eq_str (showing clue) "question"); simpl; auto.
    repeat split. now rewrite !update_first_row_ids.
  - repeat split. now rewrite update_first_row_ids.
Qed.

(** X1. The identifier the renderer gives a cell determines the cell:
    two cells with the same identifier are in the same column and the
    same row. *)
Theorem cell_ident_injective (c r c' r' : nat) :
  cell_ident c r = cell_ident c' r' -> c = c' /\ r = r'.
Proof.
  intros Heq.
  assert (H : addressed (mkEvent (cell_ident c r)) = Some (c', r')).
  { rewrite Heq. apply addressed_cell_ident. }
  rewrite addressed_cell_ident in H.
  now injection H as <- <-.
Qed.

Lemma cell_ident_injective_witness : 12 = 12 /\ 3 = 3.
Proof. apply (cell_ident_injective 12 3 12 3). reflexivity. Defined.

(** X2. What the renderer writes, the handler reads back: the
    identifier of the cell a completed drawing puts at row [row], column
    [col] splits into exactly that column and that row. *)
Theorem rendered_cell_round_trip {W : Type} (env : Env W)
  (cats : list Category) (s0 s1 : State W) (row col : nat) (cell : Cell) :
  renderCategories env cats s0 = (Ok tt, s1) ->
  cell_at (tbody (page s1)) row col = Some cell ->
  addressed (mkEvent (cell_id cell)) = Some (col, row).
Proof.
  rewrite renderCategories_run.
  destruct (mapM _ cats); [|discriminate].
  intros [= <-]. simpl.
  intros (_ & _ & ->)%masked_grid_cell. simpl.
  apply addressed_cell_ident.
Qed.

Lemma rendered_cell_round_trip_witness :
  addressed (mkEvent "1-4") = Some (1, 4).
Proof.
  pose (cats := [mkCategory (JStr "Math") []; mkCategory (JStr "Art") []]).
  pose (s0 := mkState tt cats false blank_page).
  apply (rendered_cell_round_trip offline cats s0
           (snd (renderCategories offline cats s0))
           4 1 (mkCell "1-4" "?" []));
    reflexivity.
Defined.

(** X3. A click on the cell ["c-r"] returns normally exactly when the
    board has a clue at [(c, r)]; when the category or the clue is not
    there the handler throws a TypeError before it has changed
    anything.  It throws in the same way on an identifier without a
    dash and on one whose first piece is not an array index. *)
Theorem handleClick_outcome {W : Type} (s : State W) :
  (forall c r,
      match clue_at (categories s) c r with
      | Some _ => fst (handleClick (mkEvent (cell_ident c r)) s) = Ok tt
      | None =>
          handleClick (mkEvent (cell_ident c r)) s = (Throw TypeError, s)
      end)
  /\ (forall evt,
        split "-" (target_id evt) !! 1%nat = None ->
        handleClick evt s = (Throw TypeError, s))
  /\ (forall evt catId,
        split "-" (target_id evt) !! 0%nat = Some catId ->
        array_index catId = None ->
        handleClick evt s = (Throw TypeError, s)).
Proof.
  split; [|split].
  - intros c r.
    destruct (clue_at (categories s) c r) as [clue|] eqn:Hclue.
    + now rewrite (handleClick_cell_run s c r clue Hclue).
    + now apply handleClick_cell_without_clue.
  - intros evt Hnone. unfold handleClick, array_get. js_unfold.
    rewrite Hnone.
    destruct (split "-" (target_id evt) !! 0%nat) as [catId|]; simpl; auto.
    destruct (array_index catId) as [c|]; simpl; auto.
    now destruct (categories s !! c).
  - intros evt catId Hpiece Hindex. unfold handleClick, array_get. js_unfold.
    now rewrite Hpiece, Hindex.
Qed.

Lemma handleClick_outcome_witness :
  let s := mkState tt [mkCategory (JStr "Math") [mkClue "2+2" "4" JNull]]
                   true blank_page in
  fst (handleClick (mkEvent (cell_ident 0 0)) s) = Ok tt
  /\ handleClick (mkEvent (cell_ident 0 1)) s = (Throw TypeError, s)
  /\ handleClick (mkEvent "start") s = (Throw TypeError, s)
  /\ handleClick (mkEvent "x-0") s = (Throw TypeError, s).
Proof.
  intros s.
  destruct (handleClick_outcome s) as (Hcell & Hdash & Hpiece).
  split; [exact (Hcell 0 0)|]. split; [exact (Hcell 0 1)|].
  split; [now apply Hdash|].
  now apply (Hpiece (mkEvent "x-0") "x").
Defined.

(** X4. A click on the cell of a clue always takes the next step: a
    hidden clue gets ["question"], a clue showing its question gets
    ["answer"], and nothing else of the clue changes.  So two clicks on
    the same cell bring any clue to its answer, and from then on a
    click on that cell changes nothing at all. *)
Theorem handleClick_reveals_next {W : Type} (s : State W) (c r : nat)
  (clue : Clue) :
  clue_at (categories s) c r = Some clue ->
  let evt := mkEvent (cell_ident c r) in
  let s1 := dispatch handleClick s evt in
  let s2 := dispatch handleClick s1 evt in
  clue_at (categories s1) c r
  = Some (mkClue (question clue) (answer clue)
            match revealState (showing clue) with
            | Hidden => JStr "question"
            | Question => JStr "answer"
            | Answer => showing clue
            end)
  /\ (exists clue2,
        clue_at (categories s2) c r = Some clue2
        /\ question clue2 = question clue
        /\ answer clue2 = answer clue
        /\ revealState (showing clue2) = Answer)
  /\ dispatch handleClick s2 evt = s2.
Proof.
  intros Hclue evt s1 s2.
  assert (Hstep : forall (t : State W) k,
             clue_at (categories t) c r = Some k ->
             clue_at (categories (dispatch handleClick t evt)) c r
             = Some (mkClue (question k) (answer k)
                       match revealState (showing k) with
                       | Hidden => JStr "question"
                       | Question => JStr "answer"
                       | Answer => showing k
                       end)).
  { intros t k Hk. unfold dispatch, evt.
    rewrite (handleClick_cell_run t c r k Hk). simpl snd.
    destruct (revealState (showing k)); simpl;
      rewrite ?clue_at_write_showing, ?decide_True, ?Hk by reflexivity;
      try reflexivity.
    now destruct k. }
  pose proof (Hstep s clue Hclue) as H1. fold s1 in H1.
  pose proof (Hstep s1 _ H1) as H2. fold s2 in H2. simpl in H2.
  split; [exact H1|]. split.
  - eexists. split; [exact H2|]. simpl. repeat split.
    destruct (revealState (showing clue)) eqn:E;
      cbn; rewrite ?E; cbn; rewrite ?E; reflexivity.
  - unfold dispatch, evt. rewrite (handleClick_cell_run s2 c r _ H2).
    simpl.
    destruct (revealState (showing clue)) eqn:E;
      cbn; rewrite ?E; cbn; rewrite ?E; reflexivity.
Qed.

Lemma handleClick_reveals_next_witness :
  let clue := mkClue "2+2" "4" JNull in
  let s := mkState tt [mkCategory (JStr "Math") [clue]] true
             (mkDom [["MATH"]] (masked_grid [mkCategory (JStr "Math") []])
                    false RESTART_CAPTION) in
  let evt := mkEvent (cell_ident 0 0) in
  let s1 := dispatch handleClick s evt in
  let s2 := dispatch handleClick s1 evt in
  clue_at (categories s1) 0 0 = Some (mkClue "2+2" "4" (JStr "question"))
  /\ (exists clue2,
        clue_at (categories s2) 0 0 = Some clue2
        /\ question clue2 = "2+2"
        /\ answer clue2 = "4"
        /\ revealState (showing clue2) = Answer)
  /\ dispatch handleClick s2 evt = s2.
Proof.
  intros clue s evt s1 s2.
  apply (handleClick_reveals_next s 0 0 clue). reflexivity.
Defined.

(** X5. Clicks keep the table in step with the board.  If the table
    body shows the board (each cell the mask, the question or the
    answer with its marker class, according to its clue's [showing]),
    then after any sequence of clicks on cells, existing or not, it
    shows the board as it has become. *)
Theorem clicks_keep_page_in_step {W : Type} (s : State W)
  (cells : list (nat * nat)) :
  tbody (page s) = board_view (categories s) ->
  let s' := click_all s ((fun '(c, r) => mkEvent (cell_ident c r)) <$> cells) in
  tbody (page s') = board_view (categories s').
Proof.
  revert s. induction cells as [|[c r] cells IH]; intros s Hsync; [exact Hsync|].
  simpl. apply IH. now apply click_in_step.
Qed.

Lemma clicks_keep_page_in_step_witness :
  let cats := [mkCategory (JStr "Math") [mkClue "2+2" "4" JNull;
                                         mkClue "1+1" "2" JNull]] in
  let s := mkState tt cats true
             (mkDom [["MATH"]] (masked_grid cats) false RESTART_CAPTION) in
  let s' := click_all s ((fun '(c, r) => mkEvent (cell_ident c r))
                           <$> [(0, 1); (0, 0); (0, 1); (0, 4); (3, 0)]) in
  tbody (page s') = board_view (categories s').
Proof.
  intros cats s.
  apply (clicks_keep_page_in_step s [(0, 1); (0, 0); (0, 1); (0, 4); (3, 0)]).
  reflexivity.
Defined.

(** X6. The handler never redraws the table: after any sequence of
    clicks on cells, existing or not, the header, the spinner and the
    caption of the start button are as they were, and the table body
    has the same cells, each with its identifier, in the same places. *)
Theorem clicks_keep_table_layout {W : Type} (s : State W)
  (cells : list (nat * nat)) :
  let s' := click_all s ((fun '(c, r) => mkEvent (cell_ident c r)) <$> cells) in
  thead (page s') = thead (page s)
  /\ spinner (page s') = spinner (page s)
  /\ start_text (page s') = start_text (page s)
  /\ cell_ids (tbody (page s')) = cell_ids (tbody (page s)).
Proof.
  revert s. induction cells as [|[c r] cells IH]; intros s; [simpl; auto|].
  cbv zeta in *. rewrite fmap_cons.
  change (click_all s (mkEvent (cell_ident c r) :: ?l))
    with (click_all (dispatch handleClick s (mkEvent (cell_ident c r))) l).
  destruct (IH (dispatch handleClick s (mkEvent (cell_ident c r))))
    as (-> & -> & -> & ->).
  apply handleClick_page.
Qed.

Section Game.
Context {W : Type} (env : Env W).

Lemma react_consistent (s : State W) (a : UserAction) :
  consistent s -> consistent (react env s a).
Proof.
  intros Hcons. destruct a as [|row col]; simpl.
  - unfold dispatch.
    destruct (setupAndStart_run env s) as (ids & s1 & _ & ->). cbv zeta.
    destruct (mapM _ _); simpl; [right|now left].
    simpl. symmetry. apply board_view_hidden.
    eapply all_clues_impl; [|apply trimmed_all_hidden].
    now intros clue ->.
  - destruct (cell_at (tbody (page s)) row col) as [cell|] eqn:Hcell;
      [|exact Hcons].
    destruct Hcons as [Hempty|Hsync].
    + rewrite Hempty in Hcell. unfold cell_at in Hcell.
      now rewrite lookup_nil in Hcell.
    + rewrite Hsync in Hcell.
      rewrite (board_view_ids _ _ _ _ Hcell).
      right. now apply click_in_step.
Qed.

Lemma react_caption (s : State W) (a : UserAction) :
  start_text (page s) = caption_of (gameStarted s) ->
  start_text (page (react env s a)) = caption_of (gameStarted (react env s a)).
Proof.
  intros Hcap. destruct a as [|row col]; simpl.
  - unfold dispatch.
    destruct (setupAndStart_run env s) as (ids & s1 & _ & ->). cbv zeta.
    destruct (mapM _ _); simpl; [reflexivity|exact Hcap].
  - destruct (cell_at (tbody (page s)) row col) as [cell|]; [|exact Hcap].
    unfold dispatch.
    destruct (handleClick_page s (mkEvent (cell_id cell))) as (_ & _ & -> & _).
    destruct (handleClick_effect (mkEvent (cell_id cell)) s) as (_ & -> & _).
    exact Hcap.
Qed.

Lemma react_scripted_showing (s : State W) (a : UserAction) :
  all_clues (fun clue => scripted_showing (showing clue)) (categories s) ->
  all_clues (fun clue => scripted_showing (showing clue))
            (categories (react env s a)).
Proof.
  intros Hall. destruct a as [|row col]; simpl.
  - unfold dispatch.
    destruct (setupAndStart_categories env s) as (ids & s1 & _ & _ & ->).
    eapply all_clues_impl; [|apply trimmed_all_hidden].
    intros clue ->. now left.
  - destruct (cell_at (tbody (page s)) row col) as [cell|]; [|exact Hall].
    unfold dispatch.
    destruct (handleClick_effect (mkEvent (cell_id cell)) s)
      as (_ & _ & [-> | (c & r & clue & v & _ & _ & Hw & ->)]);
      [exact Hall|].
    apply all_clues_write_showing; [|exact Hall].
    intros k _. simpl. destruct Hw; [right; now left|right; now right].
Qed.

(** X7. Whatever the user does, start clicks and cell clicks in any
    order, the table body is either empty or shows the board as it
    stands: no cell ever shows the text of another clue or lags behind
    its clue's state. *)
Theorem game_keeps_page_consistent (s : State W) (actions : list UserAction) :
  consistent s -> consistent (react_all env s actions).
Proof.
  revert s. induction actions as [|a actions IH]; intros s Hcons;
    [exact Hcons|].
  simpl. apply IH. now apply react_consistent.
Qed.

(** X8. Whatever the user does, the start button's caption keeps
    agreeing with [gameStarted]: restart caption when it is true, start
    caption when it is false.  Runs that throw and clicks on cells
    change neither. *)
Theorem game_keeps_caption (s : State W) (actions : list UserAction) :
  consistent s ->
  start_text (page s) = caption_of (gameStarted s) ->
  start_text (page (react_all env s actions))
  = caption_of (gameStarted (react_all env s actions)).
Proof.
  revert s. induction actions as [|a actions IH]; intros s Hcons Hcap;
    [exact Hcap|].
  simpl. apply IH; [now apply react_consistent|now apply react_caption].
Qed.

(** X9. Whatever the user does, [showing] only ever holds what the
    script writes: if every clue's [showing] is [null], ["question"] or
    ["answer"], it is so after any sequence of actions. *)
Theorem game_keeps_showing_values (s : State W) (actions : list UserAction) :
  all_clues (fun clue => scripted_showing (showing clue)) (categories s) ->
  all_clues (fun clue => scripted_showing (showing clue))
            (categories (react_all env s actions)).
Proof.
  revert s. induction actions as [|a actions IH]; intros s Hall;
    [exact Hall|].
  simpl. apply IH. now apply react_scripted_showing.
Qed.
End Game.

Lemma game_keeps_page_consistent_witness :
  consistent
    (react_all scripted (fresh (demo_world [1; 2; 9]%Z [2; 0; 5]))
       [ClickCell 0 0; ClickStart; ClickCell 3 1; ClickCell 3 1;
        ClickCell 4 0; ClickStart; ClickCell 0 0]).
Proof.
  apply (game_keeps_page_consistent scripted). now left.
Defined.

Lemma game_keeps_caption_witness :
  let s := mkState (demo_world [1; 3]%Z []) [] false
             (mkDom [] [] false START_CAPTION) in
  let s' := react_all scripted s [ClickStart; ClickCell 0 0; ClickStart] in
  start_text (page s') = caption_of (gameStarted s').
Proof.
  intros s. apply (game_keeps_caption scripted s); [now left|reflexivity].
Defined.

Lemma game_keeps_showing_values_witness :
  all_clues (fun clue => scripted_showing (showing clue))
    (categories
       (react_all scripted (fresh (demo_world [1; 2]%Z [1]))
          [ClickStart; ClickCell 0 1; ClickCell 0 1; ClickCell 2 0])).
Proof.
  apply (game_keeps_showing_values scripted). constructor.
Defined.

Section Runs_more.
Context {W : Type} (env : Env W).

(** A run taken in one piece leaves every clue hidden. *)
Lemma whole_run_hides_all_clues (s : State W) :
  all_clues (fun clue => showing clue = JNull)
            (categories (snd (setupAndStart env s))).
Proof.
  destruct (setupAndStart_categories env s) as (ids & s1 & _ & _ & ->).
  apply trimmed_all_hidden.
Qed.

(** The two ways a run taken in one piece can end. *)
Lemma whole_run_outcomes (s : State W) :
  let run := setupAndStart env s in
  let s' := snd run in
  match fst run with
  | Ok _ =>
      spinner (page s') = false
      /\ length (thead (page s')) = 1
      /\ tbody (page s') = masked_grid (categories s')
      /\ Forall (fun category => exists t, title category = JStr t)
                (categories s')
  | Throw e =>
      e = TypeError
      /\ spinner (page s') = true
      /\ thead (page s') = []
      /\ tbody (page s') = []
      /\ Exists (fun category => header_text env (title category) = None)
                (categories s')
  end.
Proof.
  intros run s'. subst run s'.
  destruct (setupAndStart_run env s) as (ids & s1 & _ & ->). cbv zeta.
  destruct (mapM _ _) as [ths|] eqn:Hths; simpl.
  - repeat split.
    assert (Hsome : is_Some (mapM (fun category => header_text env (title category))
       (trimmed <$> omap resolved (replies env ids (world s1)).1)))
      by (rewrite Hths; eauto).
    apply mapM_is_Some_1 in Hsome.
    eapply Forall_impl; [exact Hsome|].
    intros cat [t Ht]. simpl in Ht. unfold header_text in Ht.
    destruct (title cat) as [| |t0]; try discriminate. eauto.
  - repeat split. now apply mapM_None_1 in Hths.
Qed.

(** X12. A restart does not look at the old game: two runs of
    [setupAndStart] in the same world, with the same flag and the same
    caption, end alike, whatever board and table each started from. *)
Theorem setupAndStart_forgets_old_board (s t : State W) :
  world s = world t ->
  gameStarted s = gameStarted t ->
  start_text (page s) = start_text (page t) ->
  setupAndStart env s = setupAndStart env t.
Proof.
  intros Hw Hg Hc.
  destruct (setupAndStart_run env s) as (ids & s1 & Hs & ->).
  destruct (setupAndStart_run env t) as (ids' & t1 & Ht & ->).
  destruct (getCategoriesIds_world env (snd (showLoadingView s))
              (snd (showLoadingView t)) Hw) as [Hf Hw1].
  rewrite Hs, Ht in Hf, Hw1. simpl in Hf, Hw1. injection Hf as <-.
  now rewrite Hw1, Hg, Hc.
Qed.

(** X13. When the service lists at most six categories, all of them
    are used: the ids returned are the pool's ids, in some order. *)
Theorem getCategoriesIds_small_pool (s : State W)
  (data : list CategorySummary) (w' : W) :
  categories_endpoint env (world s) = (Resolved data, w') ->
  length data <= NUM_CATEGORIES ->
  exists ids s',
    getCategoriesIds env s = (Ok ids, s') /\ ids ≡ₚ cat_id <$> data.
Proof.
  intros Hreply Hlen.
  destruct (getCategoriesIds_run env s) as (ids & s' & Hrun & _ & Hids).
  rewrite Hreply in Hids. cbn [fst] in Hids. destruct Hids as [Hsub Hn].
  exists ids, s'. split; [exact Hrun|].
  apply submseteq_length_Permutation; [exact Hsub|].
  rewrite length_fmap. lia.
Qed.

(** X14. Neither fetcher lets an error out or touches the game: both
    always return normally and leave [categories], [gameStarted] and
    the page as they were; [getCategory] makes exactly one request. *)
Theorem fetchers_never_throw (s : State W) :
  (exists ids s',
      getCategoriesIds env s = (Ok ids, s') /\ same_script_state s s')
  /\ forall catId, exists category s',
        getCategory env catId s = (Ok category, s')
        /\ same_script_state s s'
        /\ world s' = snd (category_endpoint env catId (world s)).
Proof.
  split.
  - destruct (getCategoriesIds_run env s) as (ids & s' & Hrun & Hsame & _).
    eauto.
  - intros catId. rewrite getCategory_run.
    destruct (category_endpoint env catId (world s)) as [[|data] w'];
      eexists _, _; (split; [reflexivity|]); now unfold same_script_state.
Qed.

(** X15. When the category-list request is rejected, [setupAndStart]
    asks for no category at all and still completes: the board is
    empty, the table has one empty header row and five empty body rows,
    the spinner is hidden and the flag is negated. *)
Theorem setupAndStart_without_category_list (s : State W) (w' : W) :
  categories_endpoint env (world s) = (Rejected, w') ->
  setupAndStart env s
  = (Ok tt,
     mkState w' [] (negb (gameStarted s))
       (mkDom [[]] (replicate NUM_QUESTIONS_PER_CAT []) false
              (caption_of (negb (gameStarted s))))).
Proof.
  intros Hrej.
  destruct (setupAndStart_run env s) as (ids & s1 & Hids & ->).
  unfold getCategoriesIds, axios_get_categories in Hids. js_unfold.
  simpl in Hids. rewrite Hrej in Hids. injection Hids as <- <-.
  reflexivity.
Qed.

(** X16. Two completed runs, one after the other, bring [gameStarted]
    back to its value before the first, and the caption is then the one
    that goes with that value, whatever the button read before. *)
Theorem two_runs_restore_caption (s : State W) :
  let run1 := setupAndStart env s in
  let run2 := setupAndStart env (snd run1) in
  fst run1 = Ok tt -> fst run2 = Ok tt ->
  gameStarted (snd run2) = gameStarted s
  /\ start_text (page (snd run2)) = caption_of (gameStarted s).
Proof.
  intros run1 run2. subst run2 run1.
  destruct (setupAndStart_run env s) as (ids & s1 & _ & ->). cbv zeta.
  destruct (mapM _ _) as [ths|]; simpl; [|discriminate]. intros _.
  match goal with
  | |- context [setupAndStart env ?st] =>
      destruct (setupAndStart_run env st) as (ids2 & s2 & _ & ->)
  end.
  cbv zeta. destruct (mapM _ _) as [ths2|]; simpl; [|discriminate].
  intros _. now rewrite negb_involutive.
Qed.
End Runs_more.

(** X17. The drawing fails exactly when a category has no string for a
    title, and then leaves the table empty; either way it changes
    nothing but the table: the board, the flag, the spinner and the
    caption stay. *)
Theorem renderCategories_outcomes {W : Type} (env : Env W)
  (cats : list Category) (s : State W) :
  let s' := snd (renderCategories env cats s) in
  (fst (renderCategories env cats s) = Throw TypeError
   <-> Exists (fun category => header_text env (title category) = None) cats)
  /\ (fst (renderCategories env cats s) = Ok tt
      \/ (fst (renderCategories env cats s) = Throw TypeError
          /\ thead (page s') = [] /\ tbody (page s') = []))
  /\ world s' = world s
  /\ categories s' = categories s
  /\ gameStarted s' = gameStarted s
  /\ spinner (page s') = spinner (page s)
  /\ start_text (page s') = start_text (page s).
Proof.
  intros s'. subst s'. rewrite renderCategories_run.
  destruct (mapM (fun category => header_text env (title category)) cats)
    as [ths|] eqn:Hths; simpl.
  - split; [|tauto]. split; [discriminate|].
    intros Hex%mapM_None_2. congruence.
  - split; [|tauto]. split; [|reflexivity].
    intros _. now apply mapM_None_1.
Qed.

Lemma setupAndStart_forgets_old_board_witness :
  let w := demo_world [1; 2]%Z [1] in
  let old := mkState w
               [mkCategory (JStr "Old") [mkClue "q" "a" (JStr "answer")]]
               false
               (mkDom [["OLD"]] [[mkCell "0-0" "a" ["showing-answer"]]]
                      false "") in
  setupAndStart scripted (fresh w) = setupAndStart scripted old.
Proof.
  intros w old.
  apply (setupAndStart_forgets_old_board scripted (fresh w) old); reflexivity.
Defined.

Lemma getCategoriesIds_small_pool_witness :
  let s := fresh (demo_world [4; 5; 6]%Z [2; 0]) in
  exists ids s',
    getCategoriesIds scripted s = (Ok ids, s')
    /\ ids ≡ₚ cat_id <$> (mkSummary <$> [4; 5; 6]%Z).
Proof.
  intros s.
  apply (getCategoriesIds_small_pool scripted s
           (mkSummary <$> [4; 5; 6]%Z) (world s)).
  - reflexivity.
  - unfold NUM_CATEGORIES. simpl. lia.
Defined.

Lemma setupAndStart_without_category_list_witness :
  let w := mkScripted Rejected demo_detail [] in
  setupAndStart scripted (fresh w)
  = (Ok tt,
     mkState w [] true
       (mkDom [[]] (replicate NUM_QUESTIONS_PER_CAT []) false
              RESTART_CAPTION)).
Proof.
  intros w.
  apply (setupAndStart_without_category_list scripted (fresh w) w).
  reflexivity.
Defined.

Lemma two_runs_restore_caption_witness :
  let s := fresh (demo_world [1; 2]%Z [1; 0]) in
  let run1 := setupAndStart scripted s in
  let run2 := setupAndStart scripted (snd run1) in
  gameStarted (snd run2) = false
  /\ start_text (page (snd run2)) = START_CAPTION.
Proof.
  intros s run1 run2.
  apply (two_runs_restore_caption scripted s); reflexivity.
Defined.


(** ** Runs, await by await *)

Section Overlap.
Context {W : Type} (env : Env W).

Lemma setupAndStart_begin (s : State W) :
  setupAndStart env s
  = match begin_run s with
    | (Ok p, s') => rest_of_run env p s'
    | (Throw e, s') => (Throw e, s')
    end.
Proof. reflexivity. Qed.

Lemma rest_of_run_resume (p : Pending) (s : State W) :
  rest_of_run env p s
  = match resume env p s with
    | (Ok (Some p'), s') => rest_of_run env p' s'
    | (Ok None, s') => (Ok tt, s')
    | (Throw e, s') => (Throw e, s')
    end.
Proof.
  destruct p as [|ids|catId rest|category rest].
  - unfold rest_of_run, resume. rewrite !bind_run.
    destruct (getCategoriesIds env s) as [[ids|e] s1]; reflexivity.
  - destruct ids as [|catId rest]; [|reflexivity].
    unfold rest_of_run, resume, next_request. cbn [for_of].
    cbv [mbind JS_bind mret JS_ret modify].
    destruct (finish_run env (set_categories [] s)) as [[[]|e] s1];
      reflexivity.
  - unfold rest_of_run, resume. cbn [for_of].
    cbv [mbind JS_bind mret JS_ret fetch_and_push].
    destruct (getCategory env catId s) as [[o|e] s1]; [|reflexivity].
    destruct (push_category o s1) as [[[]|e] s2]; reflexivity.
  - unfold rest_of_run, resume.
    cbv [mbind JS_bind mret JS_ret].
    destruct (push_category category s) as [[[]|e] s1]; [|reflexivity].
    destruct rest as [|catId rest]; [|reflexivity].
    unfold next_request. cbn [for_of]. cbv [mbind JS_bind mret JS_ret].
    destruct (finish_run env s1) as [[[]|e'] s2]; reflexivity.
Qed.

Lemma resume_page (p p' : Pending) (s s' : State W) :
  resume env p s = (Ok (Some p'), s') -> page s' = page s.
Proof.
  destruct p as [|ids|catId rest|category rest]; unfold resume.
  - rewrite bind_run.
    destruct (getCategoriesIds_run env s) as (ids & s1 & -> & (_ & _ & Hp) & _).
    now intros [= _ <-].
  - destruct ids as [|catId rest]; unfold next_request;
      cbv [mbind JS_bind mret JS_ret modify].
    + destruct (finish_run env (set_categories [] s)) as [[[]|e] s1];
        discriminate.
    + now intros [= _ <-].
  - rewrite bind_run, getCategory_run.
    destruct (category_endpoint env catId (world s)) as [[|data] w'];
      now intros [= _ <-].
  - cbv [mbind JS_bind mret JS_ret].
    destruct (push_category category s) as [[[]|e] s1] eqn:Hpush;
      [|discriminate].
    assert (Hpage : page s1 = page s).
    { destruct category as [c|]; cbv [push_category modify mret JS_ret] in Hpush;
        now injection Hpush as <-. }
    destruct rest as [|catId rest]; unfold next_request;
      cbv [mbind JS_bind mret JS_ret].
    + destruct (finish_run env s1) as [[[]|e] s2]; discriminate.
    + now intros [= _ <-].
Qed.

Lemma run_starts_alone (sys : System W) :
  inflight sys = [] ->
  run_in_progress env (globals sys) (outcomes sys)
                  (act env sys (User ClickStart)).
Proof.
  intros Hidle. exists AwaitList. simpl. rewrite Hidle.
  repeat split; reflexivity.
Qed.

Lemma click_on_empty_table (sys : System W) (row col : nat) :
  tbody (page (globals sys)) = [] ->
  act env sys (User (ClickCell row col)) = sys.
Proof.
  intros Hempty. unfold act, react. rewrite Hempty.
  unfold cell_at. rewrite lookup_nil. now destruct sys.
Qed.

Lemma run_in_progress_step (s0 : State W) (ended : list (result unit))
  (sys : System W) (step : Step) :
  run_in_progress env s0 ended sys ->
  step <> User ClickStart ->
  run_in_progress env s0 ended (act env sys step)
  \/ (inflight (act env sys step) = []
      /\ globals (act env sys step) = snd (setupAndStart env s0)
      /\ outcomes (act env sys step)
         = (ended ++ [fst (setupAndStart env s0)])%list).
Proof.
  intros (p & Hp & Hempty & Hout & Hrest) Hstep.
  destruct step as [[|row col]|k]; [congruence| |].
  - left. rewrite click_on_empty_table by exact Hempty.
    now exists p.
  - unfold act. rewrite Hp.
    destruct k as [|k]; [|left; exists p; rewrite ?Hp; auto].
    simpl lookup. cbv iota.
    rewrite rest_of_run_resume in Hrest.
    destruct (resume env p (globals sys)) as [[[p'|]|e] s'] eqn:Hres; simpl.
    + left. exists p'. simpl. split; [reflexivity|].
      split; [|split; [exact Hout|exact Hrest]].
      rewrite (resume_page _ _ _ _ Hres). exact Hempty.
    + right. rewrite <- Hrest, Hout. auto.
    + right. rewrite <- Hrest, Hout. auto.
Qed.

Lemma idle_stays_idle (sys : System W) (step : Step) :
  inflight sys = [] -> step <> User ClickStart ->
  inflight (act env sys step) = [].
Proof.
  intros Hidle Hstep. destruct step as [[|row col]|k]; [congruence| |].
  - exact Hidle.
  - unfold act. now rewrite Hidle, lookup_nil.
Qed.

Lemma run_in_progress_steps (s0 : State W) (ended : list (result unit))
  (steps : list Step) (sys : System W) :
  run_in_progress env s0 ended sys \/ inflight sys = [] ->
  Forall (fun step => step <> User ClickStart) steps ->
  run_in_progress env s0 ended (act_all env sys steps)
  \/ inflight (act_all env sys steps) = [].
Proof.
  revert sys. induction steps as [|step steps IH]; intros sys Hsys Hsteps;
    [exact Hsys|].
  apply Forall_cons in Hsteps as [Hstep Hsteps]. simpl.
  apply IH; [|exact Hsteps].
  destruct Hsys as [Hrun|Hidle].
  - destruct (run_in_progress_step s0 ended sys step Hrun Hstep)
      as [?|(? & _)]; auto.
  - right. now apply idle_stays_idle.
Qed.

Lemma start_inflight (sys : System W) :
  inflight (act env sys (User ClickStart)) = (inflight sys ++ [AwaitList])%list.
Proof. reflexivity. Qed.

(** A run that has the page to itself ends as the run taken in one
    piece does. *)
Lemma run_alone_refines (sys : System W) (steps : list Step) (last : Step) :
  runs_alone env sys steps last ->
  globals (after_run env sys steps last)
  = snd (setupAndStart env (globals sys))
  /\ outcomes (after_run env sys steps last)
     = (outcomes sys ++ [fst (setupAndStart env (globals sys))])%list.
Proof.
  intros (Hidle & Hsteps & Hbusy & Hend). unfold after_run.
  destruct (run_in_progress_steps (globals sys) (outcomes sys) steps
              (act env sys (User ClickStart))
              (or_introl (run_starts_alone sys Hidle)) Hsteps)
    as [Hrun|Hdone]; [|contradiction].
  destruct (decide (last = User ClickStart)) as [->|Hlast].
  - destruct Hrun as (p & Hp & _).
    rewrite start_inflight, Hp in Hend. discriminate.
  - destruct (run_in_progress_step _ _ _ last Hrun Hlast)
      as [(p & Hp & _)|(_ & Hg & Ho)]; [|auto].
    rewrite Hp in Hend. discriminate.
Qed.
End Overlap.

Section Runs_alone.
Context {W : Type} (env : Env W).

Lemma finish_run_run (s : State W) :
  finish_run env s
  = match mapM (fun category => header_text env (title category))
               (categories s) with
    | Some ths =>
        (Ok tt,
         mkState (world s) (categories s) (negb (gameStarted s))
           (mkDom [ths] (masked_grid (categories s)) false
                  (if negb (gameStarted s) then RESTART_CAPTION
                   else START_CAPTION)))
    | None =>
        (Throw TypeError,
         set_page (mkDom [] [] (spinner (page s)) (start_text (page s))) s)
    end.
Proof.
  unfold finish_run. rewrite bind_run. unfold gets at 1.
  rewrite bind_run, renderCategories_run.
  destruct (mapM _ _) as [ths|]; [|reflexivity].
  destruct s as [w cats [|] d]; reflexivity.
Qed.

Lemma resume_flag (p : Pending) (t : State W) :
  let t' := snd (resume env p t) in
  match fst (resume env p t) with
  | Ok None =>
      gameStarted t' = negb (gameStarted t)
      /\ start_text (page t')
         = (if gameStarted t' then RESTART_CAPTION else START_CAPTION)
  | Ok (Some _) | Throw _ =>
      gameStarted t' = gameStarted t
      /\ start_text (page t') = start_text (page t)
  end.
Proof.
  assert (Hnext : forall ids (u : State W),
             let u' := snd (next_request env ids u) in
             match fst (next_request env ids u) with
             | Ok None =>
                 gameStarted u' = negb (gameStarted u)
                 /\ start_text (page u')
                    = (if gameStarted u' then RESTART_CAPTION
                       else START_CAPTION)
             | Ok (Some _) | Throw _ =>
                 gameStarted u' = gameStarted u
                 /\ start_text (page u') = start_text (page u)
             end).
  { intros [|catId rest] u; [|simpl; auto].
    unfold next_request. rewrite bind_run, finish_run_run.
    destruct (mapM _ _) as [ths|]; simpl; auto. }
  destruct p as [|ids|catId rest|category rest]; unfold resume.
  - rewrite bind_run.
    destruct (getCategoriesIds_run env t) as (ids & s1 & -> & (_ & Hg & Hp) & _).
    simpl. now rewrite Hg, Hp.
  - rewrite bind_run. unfold modify at 1.
    exact (Hnext ids (set_categories [] t)).
  - rewrite bind_run, getCategory_run.
    now destruct (category_endpoint env catId (world t)) as [[|data] w'].
  - rewrite bind_run.
    destruct category as [c|]; cbv [push_category modify mret JS_ret].
    + exact (Hnext rest (set_categories (categories t ++ [c]) t)).
    + exact (Hnext rest t).
Qed.


(** C7, as the code has it.  A rejected category-list request makes
    [getCategoriesIds] return the empty array, and a rejected
    category-detail request makes [getCategory] return [null], both
    without throwing.  A run of [setupAndStart] that has the page to
    itself leaves on the board exactly the resolved detail responses,
    trimmed, in the order of the requests; when it completes, the
    header row shows their titles, upper-cased, in that order and the
    body is the masked grid of that board. *)
Theorem failed_fetches_are_skipped (s : State W) :
  (forall w', categories_endpoint env (world s) = (Rejected, w') ->
              getCategoriesIds env s = (Ok [], set_world w' s))
  /\ (forall catId w',
         category_endpoint env catId (world s) = (Rejected, w') ->
         getCategory env catId s = (Ok None, set_world w' s))
  /\ forall (sys : System W) (steps : list Step) (last : Step),
       runs_alone env sys steps last ->
       exists ids s1,
         getCategoriesIds env (snd (showLoadingView (globals sys)))
         = (Ok ids, s1)
         /\ let served := omap resolved (fst (replies env ids (world s1))) in
            let s' := globals (after_run env sys steps last) in
            categories s' = trimmed <$> served
            /\ (outcomes (after_run env sys steps last)
                = (outcomes sys ++ [Ok tt])%list ->
                tbody (page s') = masked_grid (categories s')
                /\ exists ths,
                     thead (page s') = [ths]
                     /\ Forall2 (fun data th =>
                                   exists t, title data = JStr t
                                             /\ th = toUpperCase env t
                                             /\ (is_ascii t = true ->
                                                 upper_cased t th))
                                served ths).
Proof.
  destruct (whole_run_fetches env s) as (Hlist & Hdetail & _).
  split; [exact Hlist|]. split; [exact Hdetail|].
  intros sys steps last Halone.
  destruct (run_alone_refines env sys steps last Halone) as [-> ->].
  destruct (whole_run_fetches env (globals sys))
    as (_ & _ & ids & s1 & Hids & Hboard & Htable).
  exists ids, s1. split; [exact Hids|]. cbv zeta in *.
  split; [exact Hboard|].
  intros Hok. apply Htable.
  apply app_inj_tail in Hok as [_ Hok].
  now destruct (fst (setupAndStart env (globals sys))) as [[]|].
Qed.

(** C9. [gameStarted] is negated by every run of [setupAndStart] that
    completes, and the [#start] button then reads the restart caption
    if the flag has become true and the start caption if it has become
    false; a run that throws leaves both the flag and the caption as
    they were.  A run completes exactly when every category it has put
    on the board has a string for a title, so a run with failed
    requests completes too.  Await by await: the stretch that ends a
    run with success is the only one that touches the flag and the
    caption. *)
Theorem gameStarted_flips (s : State W) :
  let s' := snd (setupAndStart env s) in
  match fst (setupAndStart env s) with
  | Ok _ =>
      gameStarted s' = negb (gameStarted s)
      /\ start_text (page s')
         = (if gameStarted s' then RESTART_CAPTION else START_CAPTION)
  | Throw _ =>
      gameStarted s' = gameStarted s
      /\ start_text (page s') = start_text (page s)
  end
  /\ (fst (setupAndStart env s) = Ok tt <-> Forall has_title (categories s'))
  /\ forall (p : Pending) (t : State W),
       let t' := snd (resume env p t) in
       match fst (resume env p t) with
       | Ok None =>
           gameStarted t' = negb (gameStarted t)
           /\ start_text (page t')
              = (if gameStarted t' then RESTART_CAPTION else START_CAPTION)
       | Ok (Some _) | Throw _ =>
           gameStarted t' = gameStarted t
           /\ start_text (page t') = start_text (page t)
       end.
Proof.
  intros s'. subst s'.
  split; [apply whole_run_flag|]. split; [|apply resume_flag].
  destruct (setupAndStart_run env s) as (ids & s1 & _ & ->). cbv zeta.
  pose proof (header_texts_Some env
                (trimmed <$> omap resolved (replies env ids (world s1)).1))
    as Htitled.
  destruct (mapM _ _) as [ths|]; simpl.
  - split; [intros _; apply Htitled; eauto|reflexivity].
  - split; [discriminate|].
    intros Hall. apply Htitled in Hall. now destruct Hall.
Qed.

(** X10. A run of [setupAndStart] that has the page to itself leaves a
    board on which every clue is hidden: [showing] is [null]
    throughout, whatever the service sent in that field and whatever
    was revealed in the game before. *)
Theorem setupAndStart_hides_all_clues (sys : System W) (steps : list Step)
  (last : Step) :
  runs_alone env sys steps last ->
  all_clues (fun clue => showing clue = JNull)
            (categories (globals (after_run env sys steps last))).
Proof.
  intros Halone.
  destruct (run_alone_refines env sys steps last Halone) as [-> _].
  apply whole_run_hides_all_clues.
Qed.

(** X11. A run of [setupAndStart] that has the page to itself ends in
    one of two ways.  Either it completes: the spinner is hidden, the
    header has one row, the body is the masked grid of the new board
    and every title is a string.  Or it throws a TypeError: the spinner
    stays on and the table stays empty, although [categories] already
    holds the new board, one of whose categories has no string for a
    title. *)
Theorem setupAndStart_outcomes (sys : System W) (steps : list Step)
  (last : Step) :
  runs_alone env sys steps last ->
  let s' := globals (after_run env sys steps last) in
  exists outcome,
    outcomes (after_run env sys steps last)
    = (outcomes sys ++ [outcome])%list
    /\ match outcome with
       | Ok _ =>
           spinner (page s') = false
           /\ length (thead (page s')) = 1
           /\ tbody (page s') = masked_grid (categories s')
           /\ Forall (fun category => exists t, title category = JStr t)
                     (categories s')
       | Throw e =>
           e = TypeError
           /\ spinner (page s') = true
           /\ thead (page s') = []
           /\ tbody (page s') = []
           /\ Exists (fun category => header_text env (title category) = None)
                     (categories s')
       end.
Proof.
  intros Halone s'. subst s'.
  destruct (run_alone_refines env sys steps last Halone) as [-> ->].
  eexists. split; [reflexivity|]. apply whole_run_outcomes.
Qed.
End Runs_alone.

(** ** Runs on concrete worlds *)


Lemma failed_fetches_are_skipped_witness :
  let w := demo_world [1; 2; 9]%Z [2; 0; 5] in
  let sys := idle (fresh w) in
  let s' := globals (after_run scripted sys quiet_steps (Settle 0)) in
  (exists ids s1,
      getCategoriesIds scripted (snd (showLoadingView (globals sys)))
      = (Ok ids, s1)
      /\ let served := omap resolved (fst (replies scripted ids (world s1))) in
         categories s' = trimmed <$> served
         /\ (outcomes (after_run scripted sys quiet_steps (Settle 0))
             = (outcomes sys ++ [Ok tt])%list ->
             tbody (page s') = masked_grid (categories s')
             /\ exists ths,
                  thead (page s') = [ths]
                  /\ Forall2 (fun data th =>
                                exists t, title data = JStr t
                                          /\ th = toUpperCase scripted t
                                          /\ (is_ascii t = true ->
                                              upper_cased t th))
                             served ths))
  /\ fst (getCategoriesIds scripted (snd (showLoadingView (globals sys))))
     = Ok [9; 2; 1]%Z
  /\ outcomes (after_run scripted sys quiet_steps (Settle 0)) = [Ok tt]
  /\ title <$> categories s' = [JStr "Art"; JStr "Math"]
  /\ thead (page s') = [["ART"; "MATH"]].
Proof.
  intros w sys s'. split; [|repeat split].
  destruct (failed_fetches_are_skipped scripted (globals sys))
    as (_ & _ & Hrun).
  apply (Hrun sys quiet_steps (Settle 0)).
  run_alone.
Defined.

(** C7, as stated, fails when [#start] is clicked again during loading:
    the first run gets the ids 1 to 6 and all six requests succeed, yet
    the board it draws at its end holds only the categories 4, 5 and
    6, the other run having emptied the board in between. *)
Lemma overlapped_run_loses_its_categories :
  let w := numbered_world [1; 2; 3; 4; 5; 6]%Z in
  let sys := act_all scripted (idle (fresh w)) restart_during_loading in
  let served :=
    omap resolved (fst (replies scripted [1; 2; 3; 4; 5; 6]%Z w)) in
  fst (getCategoriesIds scripted (snd (showLoadingView (fresh w))))
  = Ok [1; 2; 3; 4; 5; 6]%Z
  /\ title <$> served
     = [JStr "1"; JStr "2"; JStr "3"; JStr "4"; JStr "5"; JStr "6"]
  /\ outcomes sys = [Ok tt]
  /\ title <$> categories (globals sys) = [JStr "4"; JStr "5"; JStr "6"]
  /\ thead (page (globals sys)) = [["4"; "5"; "6"]]
  /\ categories (globals sys) <> trimmed <$> served.
Proof.
  intros w sys served. repeat split.
  intros Heq. apply (f_equal length) in Heq. vm_compute in Heq. discriminate.
Qed.

(** Two clicks on [#start] in a row: both runs complete, and the board
    and the table end with twelve categories. *)
Example overlapping_runs_share_board :
  let sys := act_all scripted
               (idle (fresh (numbered_world [1; 2; 3; 4; 5; 6]%Z)))
               double_start in
  inflight sys = []
  /\ outcomes sys = [Ok tt; Ok tt]
  /\ length (categories (globals sys)) = 12
  /\ length <$> thead (page (globals sys)) = [12]
  /\ gameStarted (globals sys) = false.
Proof. repeat split. Qed.

Lemma gameStarted_flips_witness :
  let s := fresh (demo_world [1; 2; 9]%Z [2; 0; 5]) in
  let run := setupAndStart scripted s in
  fst run = Ok tt
  /\ gameStarted (snd run) = true
  /\ start_text (page (snd run)) = RESTART_CAPTION.
Proof.
  intros s run.
  destruct (gameStarted_flips scripted s) as (Hcase & Hdone & _).
  assert (Hok : fst run = Ok tt).
  { apply Hdone. repeat constructor; eexists; reflexivity. }
  fold run in Hcase. rewrite Hok in Hcase. destruct Hcase as [Hflag Hcap].
  split; [exact Hok|]. split; [exact Hflag|].
  rewrite Hcap, Hflag. reflexivity.
Defined.

Lemma setupAndStart_hides_all_clues_witness :
  let old := mkState (demo_world [1; 2; 9]%Z [2; 0; 5])
               [mkCategory (JStr "Old") [mkClue "q" "a" (JStr "answer")]]
               true
               (mkDom [["OLD"]] [[mkCell "0-0" "a" ["showing-answer"]]]
                      false RESTART_CAPTION) in
  all_clues (fun clue => showing clue = JNull)
    (categories (globals (after_run scripted (idle old) quiet_steps
                            (Settle 0)))).
Proof.
  intros old.
  apply (setupAndStart_hides_all_clues scripted (idle old) quiet_steps
           (Settle 0)).
  run_alone.
Defined.

Lemma setupAndStart_outcomes_witness :
  let sys := idle (fresh (demo_world [3]%Z [])) in
  let steps := [Settle 0; Settle 0; User (ClickCell 0 0); Settle 0] in
  let s' := globals (after_run scripted sys steps (Settle 0)) in
  (exists outcome,
      outcomes (after_run scripted sys steps (Settle 0))
      = (outcomes sys ++ [outcome])%list
      /\ match outcome with
         | Ok _ =>
             spinner (page s') = false
             /\ length (thead (page s')) = 1
             /\ tbody (page s') = masked_grid (categories s')
             /\ Forall (fun category => exists t, title category = JStr t)
                       (categories s')
         | Throw e =>
             e = TypeError
             /\ spinner (page s') = true
             /\ thead (page s') = []
             /\ tbody (page s') = []
             /\ Exists (fun category =>
                          header_text scripted (title category) = None)
                       (categories s')
         end)
  /\ outcomes (after_run scripted sys steps (Settle 0)) = [Throw TypeError]
  /\ spinner (page s') = true
  /\ title <$> categories s' = [JUndefined].
Proof.
  intros sys steps s'. split; [|repeat split].
  apply (setupAndStart_outcomes scripted sys steps (Settle 0)).
  run_alone.
Defined.
